(** * Code-assistant backend: TTL cache, normalizer, duplicate detector,
      lint heuristics and the cache-backed routes of [backend/app/main.py].

    The development is a shallow embedding: every Python function of the
    module is a Rocq function of the same name, and the library
    functions it calls ([str.splitlines], [str.strip], [dict], [min],
    [re.search], [re.findall], [re.sub]) are modelled next to it. *)

From Stdlib Require Import List Bool Arith ZArith NArith QArith Lqa Lia.
From Stdlib Require Import Ascii String DecimalString.
Import ListNotations.

Set Implicit Arguments.
Local Close Scope Q_scope.
Local Open Scope nat_scope.
Local Open Scope list_scope.

(* ================================================================== *)
(** * Python strings *)
(* ================================================================== *)

(** A Python [str] is a sequence of Unicode code points. *)
Definition str := list N.

Local Open Scope N_scope.

Definition TAB : N := 9.
Definition LF : N := 10.
Definition CR : N := 13.
Definition SPACE : N := 32.

(** The code points of a literal, without escapes. *)
Definition u (s : string) : str := map N_of_ascii (list_ascii_of_string s).

(** The code points of a Python literal with the escapes
    [\n], [\t], [\r] and [\\]. *)
Fixpoint unescape (l : list ascii) : str :=
  match l with
  | [] => []
  | "\"%char :: "n"%char :: r => LF :: unescape r
  | "\"%char :: "t"%char :: r => TAB :: unescape r
  | "\"%char :: "r"%char :: r => CR :: unescape r
  | "\"%char :: "\"%char :: r => 92 :: unescape r
  | c :: r => N_of_ascii c :: unescape r
  end.

Definition py (s : string) : str := unescape (list_ascii_of_string s).

Arguments u s : simpl never.
Arguments py s : simpl never.

Definition str_eqb (a b : str) : bool :=
  if list_eq_dec N.eq_dec a b then true else false.

(** [Py_UNICODE_ISSPACE]: what [str.strip], [str.rstrip] and the
    regular expression class [\s] treat as whitespace. *)
Definition isspace (c : N) : bool :=
  ((9 <=? c) && (c <=? 13)) || ((28 <=? c) && (c <=? 32))
  || (c =? 133) || (c =? 160) || (c =? 5760)
  || ((8192 <=? c) && (c <=? 8202))
  || (c =? 8232) || (c =? 8233) || (c =? 8239) || (c =? 8287)
  || (c =? 12288).

(** [Py_UNICODE_ISLINEBREAK]: where [str.splitlines] cuts. *)
Definition islinebreak (c : N) : bool :=
  ((10 <=? c) && (c <=? 13)) || ((28 <=? c) && (c <=? 30))
  || (c =? 133) || (c =? 8232) || (c =? 8233).

(** [s.replace(old, new)] for a one-character [old]. *)
Definition replace (old : N) (new : str) (s : str) : str :=
  flat_map (fun c => if c =? old then new else [c]) s.

(** [s.splitlines()]: the lines of [s] without their terminators; a
    carriage return followed by a line feed is one terminator, and a
    final terminator opens no further line. [skip_lf] records that the
    previous character was a carriage return. *)
Fixpoint splitlines_from (skip_lf : bool) (s : str) : list str :=
  match s with
  | [] => []
  | c :: s' =>
      if skip_lf && (c =? LF) then splitlines_from false s'
      else if islinebreak c then [] :: splitlines_from (c =? CR) s'
      else match splitlines_from false s' with
           | [] => [[c]]
           | l :: ls => (c :: l) :: ls
           end
  end.

Definition splitlines (s : str) : list str := splitlines_from false s.

Definition null (s : str) : bool :=
  match s with [] => true | _ => false end.

(** [s.lstrip()], [s.rstrip()] and [s.strip()] without argument. *)
Fixpoint lstrip (s : str) : str :=
  match s with
  | c :: s' => if isspace c then lstrip s' else s
  | [] => []
  end.

Fixpoint rstrip (s : str) : str :=
  match s with
  | [] => []
  | c :: s' =>
      let r := rstrip s' in
      if isspace c && null r then [] else c :: r
  end.

Definition strip (s : str) : str := lstrip (rstrip s).

(** [sep.join(parts)]. *)
Fixpoint join (sep : str) (parts : list str) : str :=
  match parts with
  | [] => []
  | [p] => p
  | p :: ps => p ++ sep ++ join sep ps
  end.

(** [sub in s] for strings. *)
Fixpoint startswith (p s : str) : bool :=
  match p, s with
  | [], _ => true
  | a :: p', b :: s' => (a =? b) && startswith p' s'
  | _ :: _, [] => false
  end.

Fixpoint contains (sub s : str) : bool :=
  startswith sub s ||
  match s with
  | [] => false
  | _ :: s' => contains sub s'
  end.

Local Close Scope N_scope.

(** [str(n)] for an integer. *)
Definition str_of_int (n : Z) : str := u (NilZero.string_of_int (Z.to_int n)).

(* ================================================================== *)
(** * Helpers for local analysis: the normalizer *)
(* ================================================================== *)

Definition simple_auto_format (code : str) : str :=
  let lines := splitlines (replace TAB (u "    ") code) in
  strip (join [LF] (map rstrip lines)) ++ [LF].

(* ================================================================== *)
(** * Python dictionaries *)
(* ================================================================== *)

(** A [dict] with string keys keeps its entries in insertion order, which
    is the order [min] and [len] see: an association list whose keys are
    pairwise distinct. *)
Section Dict.
Variable V : Type.

Definition dict := list (str * V).

(** [d.get(k)] *)
Fixpoint dict_get (k : str) (d : dict) : option V :=
  match d with
  | [] => None
  | (k', v) :: d' => if str_eqb k k' then Some v else dict_get k d'
  end.

(** [d.pop(k, None)], the popped value dropped *)
Fixpoint dict_pop (k : str) (d : dict) : dict :=
  match d with
  | [] => []
  | (k', v) :: d' => if str_eqb k k' then d' else (k', v) :: dict_pop k d'
  end.

(** [d[k] = v]: an existing key keeps its place, a new one goes last. *)
Fixpoint dict_set (k : str) (v : V) (d : dict) : dict :=
  match d with
  | [] => [(k, v)]
  | (k', v') :: d' =>
      if str_eqb k k' then (k', v) :: d' else (k', v') :: dict_set k v d'
  end.

(** iteration over [d] yields its keys *)
Definition dict_keys (d : dict) : list str := map fst d.

Definition dict_wf (d : dict) : Prop := NoDup (dict_keys d).
End Dict.

(** [x < y] on timestamps *)
Definition Qlt_bool (x y : Q) : bool := negb (Qle_bool y x).

(** [min(iterable, key=f)]: the first element whose key is smallest, the
    running best being replaced only by a strictly smaller one; [None]
    stands for the [ValueError] on an empty iterable. *)
Fixpoint min_from (A : Type) (f : A -> Q) (best : A) (l : list A) : A :=
  match l with
  | [] => best
  | x :: l' => min_from f (if Qlt_bool (f x) (f best) then x else best) l'
  end.

Definition py_min (A : Type) (f : A -> Q) (l : list A) : option A :=
  match l with
  | [] => None
  | x :: l' => Some (min_from f x l')
  end.

(* ================================================================== *)
(** * Simple in-memory TTL cache *)
(* ================================================================== *)

(** [time.time()] is read by [get] and by [set]; each reading is an
    argument [now], a rational number of seconds. *)
Section TTLCacheDef.
Variable V : Type.

Record TTLCache := mkTTLCache {
  ttl : Z;
  max_items : Z;
  store : dict (Q * V)
}.

(** [TTLCache(ttl_seconds, max_items)] *)
Definition TTLCache_init (ttl_seconds max_items : Z) : TTLCache :=
  mkTTLCache ttl_seconds max_items [].

Definition with_store (c : TTLCache) (d : dict (Q * V)) : TTLCache :=
  mkTTLCache (ttl c) (max_items c) d.

(** [self.store[k][0]]; [min] calls it on keys of the store only, so the
    [KeyError] of a missing key (the last case) does not occur. *)
Definition created_at (d : dict (Q * V)) (k : str) : Q :=
  match dict_get k d with
  | Some (ts, _) => ts
  | None => 0%Q
  end.

(** [get] returns the value, or [None], and the cache it leaves. *)
Definition get (now : Q) (key : str) (c : TTLCache)
  : option V * TTLCache :=
  match dict_get key (store c) with
  | None => (None, c)
  | Some (ts, value) =>
      if Qlt_bool (inject_Z (ttl c)) (now - ts)%Q
      then (None, with_store c (dict_pop key (store c)))
      else (Some value, c)
  end.

(** [set] returns the cache it leaves; [None] is the [ValueError] that
    [min] raises on an empty store, before anything is changed. *)
Definition set (now : Q) (key : str) (value : V) (c : TTLCache)
  : option TTLCache :=
  if (max_items c <=? Z.of_nat (List.length (store c)))%Z then
    match py_min (created_at (store c)) (dict_keys (store c)) with
    | None => None
    | Some oldest_key =>
        Some (with_store c
                (dict_set key (now, value) (dict_pop oldest_key (store c))))
    end
  else Some (with_store c (dict_set key (now, value) (store c))).

(** A sequence of calls on the cache; a call that raises leaves the
    cache as it was. *)
Inductive cache_call :=
| CallGet (now : Q) (key : str)
| CallSet (now : Q) (key : str) (value : V).

Definition run_call (c : TTLCache) (op : cache_call) : TTLCache :=
  match op with
  | CallGet now key => snd (get now key c)
  | CallSet now key value =>
      match set now key value c with
      | Some c' => c'
      | None => c
      end
  end.

Definition run_calls (c : TTLCache) (ops : list cache_call) : TTLCache :=
  fold_left run_call ops c.
End TTLCacheDef.

Arguments TTLCache_init {V} ttl_seconds max_items.
Arguments CallGet {V} now key.

(* ================================================================== *)
(** * Regular expressions of the [re] module *)
(* ================================================================== *)

(** The patterns of the module use literals, character classes,
    concatenation, alternation, greedy and lazy repetition of one
    character class, capture groups, a lookahead, and the anchors [^] and
    [$] (both under [re.M]), [\Z] and [\b]. *)
Inductive regex : Type :=
| Eps
| Lit (c : N)
| Cls (p : N -> bool)
| Cat (r1 r2 : regex)
| Alt (r1 r2 : regex)
| Rep (greedy : bool) (min : nat) (p : N -> bool)
| Group (i : nat) (r : regex)
| Look (r : regex)
| Bol
| Eol
| EndZ
| WordB.

Fixpoint lits (s : str) : regex :=
  match s with
  | [] => Eps
  | c :: s' => Cat (Lit c) (lits s')
  end.

Definition groups := list (nat * str).

Fixpoint group (i : nat) (g : groups) : str :=
  match g with
  | [] => []
  | (j, s) :: g' => if Nat.eqb i j then s else group i g'
  end.

Definition any_char (c : N) : bool := true.
Definition dot (c : N) : bool := negb (c =? LF)%N.
Definition not_rparen (c : N) : bool := negb (c =? 41)%N.
Definition ident_start (c : N) : bool :=
  ((65 <=? c) && (c <=? 90) || (97 <=? c) && (c <=? 122) || (c =? 95))%N.

(** The backtracking matcher, in continuation-passing style: [k] is what
    remains to be matched, and the first way of matching that [k] accepts
    is the result. [prev] is the character before the current position
    and [s] the text from the current position on. *)
Section Matcher.
(** [str.isalnum] beyond ASCII, which [\w] and [\b] consult: the
    interpreter's Unicode table. *)
Variable uni_alnum : N -> bool.

Definition isword (c : N) : bool :=
  if (c <? 128)%N
  then ((48 <=? c) && (c <=? 57) || (65 <=? c) && (c <=? 90)
        || (97 <=? c) && (c <=? 122) || (c =? 95))%N
  else uni_alnum c.

Definition isword_at (o : option N) : bool :=
  match o with
  | Some c => isword c
  | None => false
  end.

Fixpoint rep_greedy (R : Type) (p : N -> bool) (prev : option N) (s : str)
  (k : option N -> str -> option R) : option R :=
  match s with
  | c :: s' =>
      if p c then
        match rep_greedy p (Some c) s' k with
        | Some r => Some r
        | None => k prev s
        end
      else k prev s
  | [] => k prev s
  end.

Fixpoint rep_lazy (R : Type) (p : N -> bool) (prev : option N) (s : str)
  (k : option N -> str -> option R) : option R :=
  match k prev s with
  | Some r => Some r
  | None =>
      match s with
      | c :: s' => if p c then rep_lazy p (Some c) s' k else None
      | [] => None
      end
  end.

Fixpoint rep (R : Type) (greedy : bool) (n : nat) (p : N -> bool)
  (prev : option N) (s : str) (k : option N -> str -> option R)
  : option R :=
  match n with
  | O => if greedy then rep_greedy p prev s k else rep_lazy p prev s k
  | S n' =>
      match s with
      | c :: s' => if p c then rep greedy n' p (Some c) s' k else None
      | [] => None
      end
  end.

Fixpoint rmatch (r : regex) (R : Type) (prev : option N) (s : str)
  (g : groups) (k : option N -> str -> groups -> option R) : option R :=
  match r with
  | Eps => k prev s g
  | Lit c =>
      match s with
      | x :: s' => if (x =? c)%N then k (Some x) s' g else None
      | [] => None
      end
  | Cls p =>
      match s with
      | x :: s' => if p x then k (Some x) s' g else None
      | [] => None
      end
  | Cat r1 r2 =>
      rmatch r1 prev s g (fun prev' s' g' => rmatch r2 prev' s' g' k)
  | Alt r1 r2 =>
      match rmatch r1 prev s g k with
      | Some x => Some x
      | None => rmatch r2 prev s g k
      end
  | Rep greedy n p => rep greedy n p prev s (fun prev' s' => k prev' s' g)
  | Group i r1 =>
      rmatch r1 prev s g
        (fun prev' s' g' =>
           k prev' s'
             ((i, firstn (List.length s - List.length s') s) :: g'))
  | Look r1 =>
      match rmatch r1 prev s g (fun _ _ g' => Some g') with
      | Some g' => k prev s g'
      | None => None
      end
  | Bol =>
      match prev with
      | None => k prev s g
      | Some c => if (c =? LF)%N then k prev s g else None
      end
  | Eol =>
      match s with
      | [] => k prev s g
      | c :: _ => if (c =? LF)%N then k prev s g else None
      end
  | EndZ =>
      match s with
      | [] => k prev s g
      | _ :: _ => None
      end
  | WordB =>
      if xorb (isword_at prev) (isword_at (hd_error s))
      then k prev s g else None
  end.

(** One attempt at the current position: the number of characters
    matched and the groups. With [must_advance], an empty match is
    refused (the rule of [findall] and [sub] after an empty match). *)
Definition match_here (r : regex) (must_advance : bool)
  (prev : option N) (s : str) : option (nat * groups) :=
  rmatch r prev s []
    (fun _ s' g =>
       let n := List.length s - List.length s' in
       if must_advance && Nat.eqb n 0 then None else Some (n, g)).

(** [re.search(r, s)]: the leftmost position with a match. *)
Fixpoint search_from (r : regex) (prev : option N) (s : str)
  : option (nat * groups) :=
  match match_here r false prev s with
  | Some m => Some m
  | None =>
      match s with
      | [] => None
      | c :: s' => search_from r (Some c) s'
      end
  end.

Definition re_search (r : regex) (s : str) : bool :=
  match search_from r None s with
  | Some _ => true
  | None => false
  end.

(** [re.findall]: the matches from left to right, each search starting
    where the previous match ended. [skip] counts the characters of the
    current position that the previous match consumed. *)
Fixpoint findall_from (r : regex) (prev : option N) (s : str) (skip : nat)
  : list groups :=
  let next (n : nat) :=
    match s with
    | [] => []
    | c :: s' => findall_from r (Some c) s' n
    end in
  match skip with
  | S n => next n
  | O =>
      match match_here r false prev s with
      | None => next 0
      | Some (S n, g) => g :: next n
      | Some (O, g) =>
          g :: match match_here r true prev s with
               | Some (S n, g') => g' :: next n
               | _ => next 0
               end
      end
  end.

Definition re_findall (r : regex) (s : str) : list groups :=
  findall_from r None s 0.

(** [re.sub(r, repl, s)] for a replacement without group references. *)
Fixpoint sub_from (r : regex) (repl : str) (prev : option N) (s : str)
  (skip : nat) : str :=
  let next (n : nat) (keep : bool) :=
    match s with
    | [] => []
    | c :: s' => (if keep then [c] else []) ++ sub_from r repl (Some c) s' n
    end in
  match skip with
  | S n => next n false
  | O =>
      match match_here r false prev s with
      | None => next 0 true
      | Some (S n, _) => repl ++ next n false
      | Some (O, _) =>
          repl ++ match match_here r true prev s with
                  | Some (S n, _) => repl ++ next n false
                  | _ => next 0 true
                  end
      end
  end.

Definition re_sub (r : regex) (repl : str) (s : str) : str :=
  sub_from r repl None s 0.
End Matcher.

Definition seq (rs : list regex) : regex := fold_right Cat Eps rs.

(* ================================================================== *)
(** * Helpers for local analysis: duplicates and lint findings *)
(* ================================================================== *)

Record refactor := mkRefactor {
  symbol : str;
  suggestion : str
}.

Record analysis := mkAnalysis {
  formatted : str;
  findings : list str;
  refactors : list refactor
}.

Definition finding_tabs : str := u "Use spaces instead of tabs (PEP 8).".
Definition finding_print : str :=
  u "Prefer `logging` over bare `print` for production code.".
Definition finding_except : str :=
  u "Avoid bare `except: pass`; catch specific exceptions and handle them.".
Definition finding_none : str :=
  u "Use `is None` / `is not None` instead of `== None`.".
Definition finding_stub : str :=
  u "Stub functions detected; implement or document TODOs.".
Definition finding_long : str :=
  u "Some lines exceed 120 characters; consider wrapping.".
Definition finding_trailing : str :=
  u "Trailing whitespace found; remove for clean diffs.".

(** [^def\s+|\Z] under [re.M], the lookahead that closes the function
    pattern *)
Definition body_end : regex :=
  Alt (seq [Bol; lits (u "def"); Rep true 1 isspace]) EndZ.

Section Analysis.
Variable uni_alnum : N -> bool.

(** [def\s+([A-Za-z_]\w* )\s*\([^)]*\)\s*:\s*([\s\S]*?)(?=^def\s+|\Z)],
    compiled with [re.M] (the blank before the first closing
    parenthesis is not part of the pattern) *)
Definition function_pattern : regex :=
  seq [ lits (u "def"); Rep true 1 isspace;
        Group 1 (Cat (Cls ident_start) (Rep true 0 (isword uni_alnum)));
        Rep true 0 isspace; Lit 40; Rep true 0 not_rparen; Lit 41;
        Rep true 0 isspace; Lit 58; Rep true 0 isspace;
        Group 2 (Rep false 0 any_char); Look body_end ].

(** [\s+] *)
Definition spaces_pattern : regex := Rep true 1 isspace.

(** The [(name, body)] tuples of [pattern.findall(code)]. *)
Definition function_matches (code : str) : list (str * str) :=
  map (fun g => (group 1 g, group 2 g))
      (re_findall uni_alnum function_pattern code).

(** One turn of the loop over the matches, on [(bodies_map, dups)]. *)
Definition duplicate_step (st : dict str * list (str * str))
  (m : str * str) : dict str * list (str * str) :=
  let '(bodies_map, dups) := st in
  let '(name, body) := m in
  let key := re_sub uni_alnum spaces_pattern [] body in
  match dict_get key bodies_map with
  | Some first =>
      if negb (str_eqb first name)
      then (bodies_map, dups ++ [(first, name)])
      else (dict_set key name bodies_map, dups)
  | None => (dict_set key name bodies_map, dups)
  end.

Definition find_duplicates_in (matches : list (str * str))
  : list (str * str) :=
  snd (fold_left duplicate_step matches ([], [])).

Definition find_duplicate_functions (code : str) : list (str * str) :=
  find_duplicates_in (function_matches code).

(** [print\(.+?\)] *)
Definition print_pattern : regex :=
  seq [ lits (u "print("); Rep false 1 dot; Lit 41 ].

(** [except\s*:\s*pass] *)
Definition except_pattern : regex :=
  seq [ lits (u "except"); Rep true 0 isspace; Lit 58;
        Rep true 0 isspace; lits (u "pass") ].

(** [==\s*None|None\s*==] *)
Definition none_pattern : regex :=
  Alt (seq [ lits (u "=="); Rep true 0 isspace; lits (u "None") ])
      (seq [ lits (u "None"); Rep true 0 isspace; lits (u "==") ]).

(** [def\s+.+\([^)]*\):\s*\n\s*pass\b] *)
Definition stub_pattern : regex :=
  seq [ lits (u "def"); Rep true 1 isspace; Rep true 1 dot; Lit 40;
        Rep true 0 not_rparen; Lit 41; Lit 58; Rep true 0 isspace;
        Lit LF; Rep true 0 isspace; lits (u "pass"); WordB ].

(** [\s+$] under [re.M] *)
Definition trailing_pattern : regex := seq [ Rep true 1 isspace; Eol ].

Definition lint_like_findings (code : str) : list str :=
  let findings := [] in
  let findings :=
    if contains [TAB] code then findings ++ [finding_tabs] else findings in
  let findings :=
    if re_search uni_alnum print_pattern code
       && negb (contains (u "logging") code)
    then findings ++ [finding_print] else findings in
  let findings :=
    if re_search uni_alnum except_pattern code
    then findings ++ [finding_except] else findings in
  let findings :=
    if re_search uni_alnum none_pattern code
    then findings ++ [finding_none] else findings in
  let findings :=
    if re_search uni_alnum stub_pattern code
    then findings ++ [finding_stub] else findings in
  let findings :=
    if existsb (fun ln => 120 <? List.length ln) (splitlines code)
    then findings ++ [finding_long] else findings in
  let findings :=
    if re_search uni_alnum trailing_pattern code
    then findings ++ [finding_trailing] else findings in
  findings.

(** The suggestion for one pair of duplicates. *)
Definition duplicate_refactor (p : str * str) : refactor :=
  let '(a, b) := p in
  mkRefactor (a ++ u " & " ++ b)
    (u "Functions `" ++ a ++ u "` and `" ++ b
       ++ u "` have identical bodies. Extract a single helper and reuse.").

Definition general_refactor : refactor :=
  mkRefactor (u "General")
    (u "No duplicate functions detected. Consider extracting shared logic if future duplication appears.").

(** [analyze(req)], on [req.code] *)
Definition analyze (code : str) : analysis :=
  let formatted := simple_auto_format code in
  let findings := lint_like_findings code in
  let refactors := map duplicate_refactor (find_duplicate_functions code) in
  let refactors :=
    match refactors with
    | [] => refactors ++ [general_refactor]
    | _ :: _ => refactors
    end in
  mkAnalysis formatted findings refactors.
End Analysis.

(* ================================================================== *)
(** * Model gateway and cache-backed routes *)
(* ================================================================== *)

(** A parsed JSON document. *)
Unset Elimination Schemes.
Inductive json : Type :=
| JNull
| JBool (b : bool)
| JNum (q : Q)
| JStr (s : str)
| JArr (l : list json)
| JObj (l : dict json).
Set Elimination Schemes.

Definition and_then (A B : Type) (o : option A) (f : A -> option B)
  : option B :=
  match o with
  | Some a => f a
  | None => None
  end.

(** [data[key]] for a string key; [None] is the [KeyError] or
    [TypeError]. *)
Definition subscript (key : str) (data : json) : option json :=
  match data with
  | JObj d => dict_get key d
  | _ => None
  end.

(** [data[0]]; [None] is the [IndexError], [KeyError] or [TypeError]. *)
Definition subscript0 (data : json) : option json :=
  match data with
  | JArr (x :: _) => Some x
  | JStr (c :: _) => Some (JStr [c])
  | _ => None
  end.

(** How a call ends: with a value, with an [HTTPException], or with
    another exception. *)
Inductive outcome (A : Type) : Type :=
| Return (a : A)
| HTTPException (status_code : Z) (detail : str)
| Raised.

Arguments Return {A} a.
Arguments HTTPException {A} status_code detail.
Arguments Raised {A}.

(** The module constants read from the environment. *)
Record config := mkConfig {
  HF_API_TOKEN : str;
  QWEN3_MODEL : str;
  DEEPSEEK31_MODEL : str
}.

(** What [client.post] gives back; [r_json] is [None] when [r.json()]
    raises. *)
Record response := mkResponse {
  r_status_code : Z;
  r_text : str;
  r_json : option json
}.

Module ExplainRequest.
Record t := mk { code : str; model : str }.
End ExplainRequest.

Module InferRequest.
Record t := mk { model : str; prompt : str }.
End InferRequest.

Section Routes.
Variable cfg : config.
(** The builtin [hash] on strings, fixed for the life of the process. *)
Variable hash : str -> Z.
(** The remote end: the answer to the [n]-th [client.post] of a call
    with the given model and prompt; [None] when [post] raises. *)
Variable post : str -> str -> nat -> option response.

Definition select_model_id (model_key : str) : str :=
  if str_eqb model_key (u "qwen3")
  then QWEN3_MODEL cfg else DEEPSEEK31_MODEL cfg.

Definition hf_chat_completion (model user_prompt : str) : outcome json :=
  if null (HF_API_TOKEN cfg)
  then HTTPException 500 (u "HF_API_TOKEN not configured.")
  else
    match post model user_prompt 0 with
    | None => Raised
    | Some r =>
        let r :=
          if (r_status_code r =? 429)%Z || (r_status_code r =? 503)%Z
          then post model user_prompt 1 else Some r in
        match r with
        | None => Raised
        | Some r =>
            if negb (r_status_code r =? 200)%Z
            then HTTPException 500
                   (u "Hugging Face Router API error: " ++ r_text r)
            else
              match r_json r with
              | None => Raised
              | Some data =>
                  match
                    and_then
                      (and_then
                         (and_then (subscript (u "choices") data)
                            subscript0)
                         (subscript (u "message")))
                      (subscript (u "content"))
                  with
                  | Some content => Return content
                  | None =>
                      HTTPException 500
                        (u "Unexpected response format from HF Router API")
                  end
              end
        end
    end.

(** [if cached:] on an optional dictionary *)
Definition truthy (cached : option (dict json)) : bool :=
  match cached with
  | Some (_ :: _) => true
  | _ => false
  end.

Definition explain_key (req : ExplainRequest.t) : str :=
  u "explain:" ++ ExplainRequest.model req ++ u ":"
    ++ str_of_int (hash (ExplainRequest.code req)).

Definition infer_key (req : InferRequest.t) : str :=
  u "infer:" ++ InferRequest.model req ++ u ":"
    ++ str_of_int (hash (InferRequest.prompt req)).

Definition explain_prompt (code : str) : str :=
  u "You are a senior code reviewer. Add detailed comments and best-practice signposts. "
  ++ u "Focus on naming, cohesion, error handling, typing, complexity, and DRY. "
  ++ py "Return concise markdown bullet points followed by a commented code block.\n\n"
  ++ py "CODE:\n" ++ code.

(** The part the two routes share after the key is computed: look the
    key up, call the gateway on a miss, store and return its answer
    under [field]. [t_get] and [t_set] are the clock readings of
    [cache.get] and [cache.set]. *)
Definition cached_completion (cache_key field model_key prompt : str)
  (t_get t_set : Q) (cache : TTLCache (dict json))
  : outcome (dict json) * TTLCache (dict json) :=
  let (cached, cache) := get t_get cache_key cache in
  if truthy cached then
    match cached with
    | Some result => (Return result, cache)
    | None => (Raised, cache)
    end
  else
    let model_repo := select_model_id model_key in
    match hf_chat_completion model_repo prompt with
    | Return text =>
        let result := [(field, text)] in
        match set t_set cache_key result cache with
        | Some cache' => (Return result, cache')
        | None => (Raised, cache)
        end
    | HTTPException status_code detail =>
        (HTTPException status_code detail, cache)
    | Raised => (Raised, cache)
    end.

Definition explain (req : ExplainRequest.t) :=
  cached_completion (explain_key req) (u "explanation")
    (ExplainRequest.model req) (explain_prompt (ExplainRequest.code req)).

Definition infer (req : InferRequest.t) :=
  cached_completion (infer_key req) (u "text")
    (InferRequest.model req) (InferRequest.prompt req).
End Routes.

(** The module's cache: [cache = TTLCache()]. *)
Definition cache : TTLCache (dict json) := TTLCache_init 45 200.

(** The module constants when the environment sets none of them. *)
Definition default_config : config :=
  mkConfig [] (u "Qwen/Qwen2.5-Coder-7B-Instruct")
    (u "deepseek-ai/DeepSeek-Coder-V2-Lite-Instruct").

(* ================================================================== *)
(** * Vocabulary of the statements *)
(* ================================================================== *)

(** ** The cache-backed routes *)

(** The response [hf_chat_completion] goes on with: the first one, or the
    second when the first asked for a retry. *)
Definition final_response (post : str -> str -> nat -> option response)
  (model prompt : str) : option response :=
  match post model prompt 0 with
  | None => None
  | Some r =>
      if (r_status_code r =? 429)%Z || (r_status_code r =? 503)%Z
      then post model prompt 1 else Some r
  end.

(** The three failures of the gateway contract. *)
Inductive gateway_failure (cfg : config)
  (post : str -> str -> nat -> option response) (model prompt : str)
  : Prop :=
| Unconfigured :
    HF_API_TOKEN cfg = [] -> gateway_failure cfg post model prompt
| RemoteError (r : response) :
    HF_API_TOKEN cfg <> [] ->
    final_response post model prompt = Some r ->
    r_status_code r <> 200%Z ->
    gateway_failure cfg post model prompt
| MalformedResponse (r : response) (data : json) :
    HF_API_TOKEN cfg <> [] ->
    final_response post model prompt = Some r ->
    r_status_code r = 200%Z ->
    r_json r = Some data ->
    and_then
      (and_then (and_then (subscript (u "choices") data) subscript0)
         (subscript (u "message")))
      (subscript (u "content")) = None ->
    gateway_failure cfg post model prompt.

(** ** The normalizer *)

(** Line-level operations in which the normalizer is described: dropping
    the empty lines at the start and at the end of a text, and stripping
    the leading whitespace of the first line. *)
Fixpoint drop_blank_start (ls : list str) : list str :=
  match ls with
  | [] :: ls' => drop_blank_start ls'
  | _ => ls
  end.

Fixpoint drop_blank_end (ls : list str) : list str :=
  match ls with
  | [] => []
  | l :: ls' =>
      match l, drop_blank_end ls' with
      | [], [] => []
      | _, r => l :: r
      end
  end.

Definition trim_blank (ls : list str) : list str :=
  drop_blank_start (drop_blank_end ls).

Definition lstrip_first (ls : list str) : list str :=
  match ls with
  | [] => []
  | l :: ls' => lstrip l :: ls'
  end.

(** The lines of a text as the normalizer sees them: tabs expanded, cut
    at line boundaries, trailing whitespace removed. *)
Definition stripped_lines (code : str) : list str :=
  map rstrip (splitlines (replace TAB (u "    ") code)).

(** The normalizer as the specification words it: of the stripped lines
    only the blank ones at both ends are dropped, and the text is closed
    by one newline. *)
Definition format_as_specified (code : str) : str :=
  join [LF] (trim_blank (stripped_lines code)) ++ [LF].

(** The lines the normalizer keeps. *)
Definition normal_lines (code : str) : list str :=
  lstrip_first (trim_blank (stripped_lines code)).

(** A text ends with exactly one newline. *)
Definition ends_with_one_newline (s : str) : Prop :=
  exists body, s = body ++ [LF] /\ forall b, body <> b ++ [LF].

(** ** Regular expressions *)

(** The character before a position that lies [w] after a position whose
    previous character is [prev]. *)
Definition last_char (prev : option N) (w : str) : option N :=
  fold_left (fun _ c => Some c) w prev.

(** What a pattern matches, without the search order: [matches r prev w
    rest] holds when [r] can match the text [w] that comes after the
    character [prev] and before the text [rest]. *)
Fixpoint matches (uni_alnum : N -> bool) (r : regex) (prev : option N)
  (w rest : str) : Prop :=
  match r with
  | Eps => w = []
  | Lit c => w = [c]
  | Cls p => exists c, w = [c] /\ p c = true
  | Cat r1 r2 =>
      exists w1 w2,
        w = w1 ++ w2 /\
        matches uni_alnum r1 prev w1 (w2 ++ rest) /\
        matches uni_alnum r2 (last_char prev w1) w2 rest
  | Alt r1 r2 =>
      matches uni_alnum r1 prev w rest \/ matches uni_alnum r2 prev w rest
  | Rep _ n p => n <= List.length w /\ Forall (fun c => p c = true) w
  | Group _ r1 => matches uni_alnum r1 prev w rest
  | Look r1 =>
      w = [] /\
      exists w1 rest1, rest = w1 ++ rest1 /\ matches uni_alnum r1 prev w1 rest1
  | Bol => w = [] /\ (prev = None \/ prev = Some LF)
  | Eol => w = [] /\ (rest = [] \/ exists rest', rest = LF :: rest')
  | EndZ => w = [] /\ rest = []
  | WordB =>
      w = [] /\
      isword_at uni_alnum prev <> isword_at uni_alnum (hd_error rest)
  end.

(** A continuation whose success does not depend on the groups. *)
Definition blind (R : Type) (k : option N -> str -> groups -> option R)
  : Prop :=
  forall p s g1 g2, k p s g1 = None -> k p s g2 = None.

(** The length of the longest prefix of [s] made of characters in [p]. *)
Fixpoint run_length (p : N -> bool) (s : str) : nat :=
  match s with
  | c :: s' => if p c then S (run_length p s') else 0
  | [] => 0
  end.

(** ** The lint engine *)

(** The texts on which the stub check of the lint engine fires: a [def],
    whitespace, at least one character on the same line, a parenthesised
    list without closing parenthesis inside, a colon, whitespace holding
    a line feed, and the word [pass]. What follows that word is free,
    except that it does not continue the word. *)
Definition stub_shape (uni_alnum : N -> bool) (code : str) : Prop :=
  exists pre ws1 sig params ws2 ws3 rest,
    code = pre ++ (u "def" ++ ws1 ++ sig ++ [40%N] ++ params ++ [41%N]
                     ++ [58%N] ++ ws2 ++ [LF] ++ ws3 ++ u "pass") ++ rest /\
    ws1 <> [] /\ Forall (fun c => isspace c = true) ws1 /\
    sig <> [] /\ Forall (fun c => c <> LF) sig /\
    Forall (fun c => c <> 41%N) params /\
    Forall (fun c => isspace c = true) ws2 /\
    Forall (fun c => isspace c = true) ws3 /\
    isword_at uni_alnum (hd_error rest) = false.

(** ** The duplicate detector *)

(** The comparison key of a match of the function pattern: its body
    without whitespace, as the loop of [find_duplicate_functions]
    computes it. *)
Definition body_key (uni_alnum : N -> bool) (m : str * str) : str :=
  re_sub uni_alnum spaces_pattern [] (snd m).

(** The input of the end-to-end example. *)
Definition two_functions : str :=
  py "def a():\n    return 1\n\ndef b():\n    return 1\n".





(* ================================================================== *)
(** * Vocabulary of the further properties *)
(* ================================================================== *)

From Stdlib Require DecimalPos DecimalZ.


(** ** Sequences of calls *)

(** The last [n] elements of a list. *)
Definition lastn (A : Type) (n : nat) (l : list A) : list A :=
  skipn (List.length l - n) l.

(** Clock readings that never go back. *)
Fixpoint nondecreasing (ts : list Q) : Prop :=
  match ts with
  | [] => True
  | t :: ts' => Forall (fun t' => (t <= t')%Q) ts' /\ nondecreasing ts'
  end.

(** A write [(now, key, value)], as a call and as the entry it leaves. *)
Definition write_call (V : Type) (w : Q * str * V) : cache_call V :=
  let '(now, key, value) := w in CallSet now key value.

Definition write_entry (V : Type) (w : Q * str * V) : str * (Q * V) :=
  let '(now, key, value) := w in (key, (now, value)).

Definition write_key (V : Type) (w : Q * str * V) : str := snd (fst w).
Definition write_time (V : Type) (w : Q * str * V) : Q := fst (fst w).


(** ** The gateway *)

(** [data["choices"][0]["message"]["content"]]; [None] when one of the
    subscripts raises. *)
Definition choice_content (data : json) : option json :=
  and_then
    (and_then (and_then (subscript (u "choices") data) subscript0)
       (subscript (u "message")))
    (subscript (u "content")).

(** A status on which the gateway posts a second time. *)
Definition asks_retry (r : response) : bool :=
  ((r_status_code r =? 429) || (r_status_code r =? 503))%Z.

(** ** Sequences of requests *)

(** A request to one of the two cache-backed routes, with the remote end
    as it answers during the request and the clock readings of
    [cache.get] and [cache.set]. *)
Inductive api_call :=
| PostExplain (post : str -> str -> nat -> option response)
    (req : ExplainRequest.t) (t_get t_set : Q)
| PostInfer (post : str -> str -> nat -> option response)
    (req : InferRequest.t) (t_get t_set : Q).

Definition serve (cfg : config) (hash : str -> Z)
  (c : TTLCache (dict json)) (call : api_call)
  : outcome (dict json) * TTLCache (dict json) :=
  match call with
  | PostExplain post req t_get t_set =>
      explain cfg hash post req t_get t_set c
  | PostInfer post req t_get t_set =>
      infer cfg hash post req t_get t_set c
  end.

(** The cache after a sequence of requests, served one after the other. *)
Definition serve_all (cfg : config) (hash : str -> Z)
  (c : TTLCache (dict json)) (calls : list api_call)
  : TTLCache (dict json) :=
  fold_left (fun c call => snd (serve cfg hash c call)) calls c.

(** What the cache sees of the requests. A request looks its key up and,
    when the gateway has answered, stores the answer; while it waits for
    the gateway other requests may run, so the cache sees the look-ups
    and the stores of all requests in some order. *)
Inductive cache_step :=
| LookUp (now : Q) (key : str)
| StoreExplain (now : Q) (req : ExplainRequest.t) (text : json)
| StoreInfer (now : Q) (req : InferRequest.t) (text : json).

Definition run_step (hash : str -> Z) (c : TTLCache (dict json))
  (step : cache_step) : TTLCache (dict json) :=
  match step with
  | LookUp now key => run_call c (CallGet now key)
  | StoreExplain now req text =>
      run_call c
        (CallSet now (explain_key hash req) [(u "explanation", text)])
  | StoreInfer now req text =>
      run_call c (CallSet now (infer_key hash req) [(u "text", text)])
  end.

Definition run_steps (hash : str -> Z) (c : TTLCache (dict json))
  (steps : list cache_step) : TTLCache (dict json) :=
  fold_left (run_step hash) steps c.

(** The value the routes keep under a key: one field, named after the
    operation of the key. *)
Definition entry_of_route (hash : str -> Z) (k : str) (v : dict json)
  : Prop :=
  (exists req text,
      k = explain_key hash req /\ v = [(u "explanation", text)]) \/
  (exists req text,
      k = infer_key hash req /\ v = [(u "text", text)]).

(** ** The normalizer and the duplicate detector *)

(** A text without its whitespace. *)
Definition squeezed (s : str) : str :=
  filter (fun c => negb (isspace c)) s.

(** The name of the first match whose body has the key. *)
Definition first_named (key : str) (ms : list (str * str)) : option str :=
  option_map fst (find (fun m => str_eqb (squeezed (snd m)) key) ms).

(** The pairs of a list of matches, by first occurrence: every match is
    paired with the first match of the same body, unless that one has
    the same name. *)
Definition pairs_by_first (ms : list (str * str)) : list (str * str) :=
  flat_map
    (fun m =>
       match first_named (squeezed (snd m)) ms with
       | Some first =>
           if str_eqb first (fst m) then [] else [(first, fst m)]
       | None => []
       end) ms.

(** ** The lint engine *)

(** [sub] occurs in [s]. *)
Definition occurs (sub s : str) : Prop := exists a b, s = a ++ sub ++ b.

(** A call of [print] with something between its parentheses, on one
    line. *)
Definition print_shape (code : str) : Prop :=
  exists pre args rest,
    code = pre ++ (u "print(" ++ args ++ [41%N]) ++ rest /\
    args <> [] /\ Forall (fun c => c <> LF) args.

(** [except], a colon and [pass], with nothing but whitespace between
    them. *)
Definition except_shape (code : str) : Prop :=
  exists pre ws1 ws2 rest,
    code = pre ++ (u "except" ++ ws1 ++ [58%N] ++ ws2 ++ u "pass") ++ rest /\
    Forall (fun c => isspace c = true) ws1 /\
    Forall (fun c => isspace c = true) ws2.

(** [==] and [None] next to each other, in either order, with nothing
    but whitespace between them. *)
Definition none_shape (code : str) : Prop :=
  exists pre ws rest,
    Forall (fun c => isspace c = true) ws /\
    (code = pre ++ (u "==" ++ ws ++ u "None") ++ rest \/
     code = pre ++ (u "None" ++ ws ++ u "==") ++ rest).

(** A whitespace character at the end of the text or before a line
    feed. *)
Definition trailing_shape (code : str) : Prop :=
  exists pre c rest,
    code = pre ++ c :: rest /\ isspace c = true /\
    (rest = [] \/ exists rest', rest = LF :: rest').

(* ================================================================== *)
(** * Properties of dictionaries and of [min] *)
(* ================================================================== *)

Lemma str_eqb_eq (a b : str) : str_eqb a b = true <-> a = b.
Proof.
  unfold str_eqb. destruct (list_eq_dec N.eq_dec a b); split; congruence.
Qed.

Lemma str_eqb_refl (a : str) : str_eqb a a = true.
Proof. now apply str_eqb_eq. Qed.

Lemma str_eqb_neq (a b : str) : a <> b -> str_eqb a b = false.
Proof.
  intros H. destruct (str_eqb a b) eqn:E; [|reflexivity].
  apply str_eqb_eq in E. contradiction.
Qed.

Ltac case_key k k' :=
  let E := fresh "E" in
  destruct (str_eqb k k') eqn:E;
  [apply str_eqb_eq in E; subst | idtac].

Section DictFacts.
Variable V : Type.
Implicit Types (d : dict V) (k : str) (v : V).

Lemma dict_get_set_same k v d : dict_get k (dict_set k v d) = Some v.
Proof.
  induction d as [|[k' v'] d IH]; simpl.
  - now rewrite str_eqb_refl.
  - destruct (str_eqb k k') eqn:E; simpl; rewrite E; auto.
Qed.

Lemma dict_get_set_other k k' v d :
  k' <> k -> dict_get k' (dict_set k v d) = dict_get k' d.
Proof.
  intros Hne. induction d as [|[k0 v0] d IH]; simpl.
  - now rewrite (str_eqb_neq Hne).
  - case_key k k0; simpl.
    + now rewrite (str_eqb_neq Hne).
    + now rewrite IH.
Qed.

Lemma dict_get_pop_other k k' d :
  k' <> k -> dict_get k' (dict_pop k d) = dict_get k' d.
Proof.
  intros Hne. induction d as [|[k0 v0] d IH]; simpl; [reflexivity|].
  case_key k k0; simpl.
  - now rewrite (str_eqb_neq Hne).
  - now rewrite IH.
Qed.

Lemma dict_get_some_in k d v : dict_get k d = Some v -> In (k, v) d.
Proof.
  induction d as [|[k' v'] d IH]; simpl; [discriminate|].
  case_key k k'.
  - intros [= ->]. now left.
  - intros H. right. auto.
Qed.

Lemma dict_get_none k d : dict_get k d = None <-> ~ In k (dict_keys d).
Proof.
  induction d as [|[k' v'] d IH]; simpl; [tauto|].
  case_key k k'.
  - split; [discriminate|]. intros H. exfalso. apply H. now left.
  - rewrite IH. split.
    + intros H [H1|H1]; [|auto]. subst. rewrite str_eqb_refl in E.
      discriminate.
    + tauto.
Qed.

Lemma dict_get_in_keys k d v : dict_get k d = Some v -> In k (dict_keys d).
Proof.
  intros H. apply dict_get_some_in in H.
  apply (in_map fst) in H. exact H.
Qed.

Lemma dict_pop_before k v (d1 d2 : dict V) :
  ~ In k (dict_keys d1) -> dict_pop k (d1 ++ (k, v) :: d2) = d1 ++ d2.
Proof.
  induction d1 as [|[k' v'] d1 IH]; simpl; intros H.
  - now rewrite str_eqb_refl.
  - rewrite str_eqb_neq by (intros ->; apply H; now left).
    f_equal. apply IH. tauto.
Qed.

Lemma length_dict_set k v d :
  List.length (dict_set k v d) =
  match dict_get k d with
  | Some _ => List.length d
  | None => S (List.length d)
  end.
Proof.
  induction d as [|[k' v'] d IH]; simpl; [reflexivity|].
  case_key k k'; simpl; [reflexivity|].
  rewrite IH. now destruct (dict_get k d).
Qed.

Lemma length_dict_set_le k v d :
  List.length (dict_set k v d) <= S (List.length d).
Proof. rewrite length_dict_set. destruct (dict_get k d); lia. Qed.

Lemma length_dict_pop k d :
  List.length (dict_pop k d) =
  match dict_get k d with
  | Some _ => pred (List.length d)
  | None => List.length d
  end.
Proof.
  induction d as [|[k' v'] d IH]; simpl; [reflexivity|].
  case_key k k'; simpl; [reflexivity|].
  rewrite IH. destruct (dict_get k d) eqn:G; [|reflexivity].
  apply dict_get_some_in in G. destruct d; [contradiction|reflexivity].
Qed.

Lemma in_keys_set x k v d :
  In x (dict_keys (dict_set k v d)) <-> x = k \/ In x (dict_keys d).
Proof.
  induction d as [|[k' v'] d IH]; simpl.
  - intuition congruence.
  - case_key k k'; simpl.
    + intuition congruence.
    + rewrite IH. intuition congruence.
Qed.

Lemma in_keys_pop x k d :
  In x (dict_keys (dict_pop k d)) -> In x (dict_keys d).
Proof.
  induction d as [|[k' v'] d IH]; simpl; [tauto|].
  case_key k k'; simpl; intuition.
Qed.

Lemma dict_wf_set k v d : dict_wf d -> dict_wf (dict_set k v d).
Proof.
  unfold dict_wf. induction d as [|[k' v'] d IH]; simpl; intros H.
  - constructor; [intros []|constructor].
  - inversion H as [|? ? Hin Hnd]; subst.
    case_key k k'; simpl.
    + now constructor.
    + constructor; [|auto]. rewrite in_keys_set. intros [->|H1].
      * rewrite str_eqb_refl in E. discriminate.
      * contradiction.
Qed.

Lemma dict_wf_pop k d : dict_wf d -> dict_wf (dict_pop k d).
Proof.
  unfold dict_wf. induction d as [|[k' v'] d IH]; simpl; intros H.
  - constructor.
  - inversion H as [|? ? Hin Hnd]; subst.
    case_key k k'; simpl; [assumption|].
    constructor; [|auto]. intros H1. apply Hin. eapply in_keys_pop; eauto.
Qed.

Lemma dict_get_pop_same k d :
  dict_wf d -> dict_get k (dict_pop k d) = None.
Proof.
  unfold dict_wf. induction d as [|[k' v'] d IH]; simpl; intros H.
  - reflexivity.
  - inversion H as [|? ? Hin Hnd]; subst.
    case_key k k'; simpl.
    + now apply dict_get_none.
    + rewrite E. auto.
Qed.

Lemma dict_wf_get k v d : dict_wf d -> In (k, v) d -> dict_get k d = Some v.
Proof.
  unfold dict_wf. induction d as [|[k' v'] d IH]; simpl; intros H Hin.
  - contradiction.
  - inversion H as [|? ? Hnin Hnd]; subst.
    destruct Hin as [[= -> ->]|Hin].
    + now rewrite str_eqb_refl.
    + case_key k k'.
      * exfalso. apply Hnin. apply (in_map fst) in Hin. exact Hin.
      * auto.
Qed.
End DictFacts.

Lemma Qlt_bool_true (x y : Q) : Qlt_bool x y = true <-> (x < y)%Q.
Proof.
  unfold Qlt_bool. rewrite negb_true_iff. split.
  - intros H. apply Qnot_le_lt. intros H1.
    apply Qle_bool_iff in H1. congruence.
  - intros H. destruct (Qle_bool y x) eqn:E; [|reflexivity].
    apply Qle_bool_iff in E. exfalso. eapply Qlt_not_le; eauto.
Qed.

Lemma Qlt_bool_false (x y : Q) : Qlt_bool x y = false <-> (y <= x)%Q.
Proof.
  unfold Qlt_bool. rewrite negb_false_iff. apply Qle_bool_iff.
Qed.

(** [min] returns the first element among those with the smallest key:
    everything before it has a strictly larger key. *)
Lemma min_from_first (A : Type) (f : A -> Q) (l : list A) (best m : A) :
  min_from f best l = m ->
  exists l1 l2, best :: l = l1 ++ m :: l2 /\
    (forall x, In x l1 -> (f m < f x)%Q) /\
    (forall x, In x l2 -> (f m <= f x)%Q).
Proof.
  revert best. induction l as [|x l IH]; simpl; intros best H.
  - subst. exists [], []. simpl. intuition.
  - destruct (Qlt_bool (f x) (f best)) eqn:E.
    + apply Qlt_bool_true in E.
      destruct (IH _ H) as (l1 & l2 & Heq & H1 & H2).
      exists (best :: l1), l2. split; [simpl; now rewrite Heq|].
      split; [|assumption].
      intros y [<-|Hy]; [|auto].
      destruct l1 as [|z l1]; simpl in Heq; injection Heq as <- ->.
      * assumption.
      * eapply Qlt_trans; [apply H1; now left|assumption].
    + apply Qlt_bool_false in E.
      destruct (IH _ H) as (l1 & l2 & Heq & H1 & H2).
      destruct l1 as [|z l1]; simpl in Heq; injection Heq as <- ->.
      * exists [], (x :: l2). simpl. split; [reflexivity|].
        split; [tauto|]. intros y [<-|Hy]; auto.
      * exists (best :: x :: l1), l2. split; [reflexivity|].
        split; [|assumption].
        intros y [<-|[<-|Hy]].
        -- apply H1. now left.
        -- eapply Qlt_le_trans; [apply H1; now left|assumption].
        -- apply H1. now right.
Qed.

(* ================================================================== *)
(** * The TTL cache *)
(* ================================================================== *)

Section CacheFacts.
Variable V : Type.
Implicit Types (c : TTLCache V) (k key : str).

Lemma created_at_entry (d : dict (Q * V)) k ts v :
  dict_wf d -> In (k, (ts, v)) d -> created_at d k = ts.
Proof.
  intros Hwf Hin. unfold created_at.
  assert (G : dict_get k d = Some (ts, v))
    by (apply dict_wf_get; assumption).
  now rewrite G.
Qed.

(** The choice [set] makes when it evicts. *)
Lemma oldest_key_split (d : dict (Q * V)) (oldest : str) :
  dict_wf d ->
  py_min (created_at d) (dict_keys d) = Some oldest ->
  exists before ts v after,
    d = before ++ (oldest, (ts, v)) :: after /\
    ~ In oldest (dict_keys before) /\
    (forall k e, In (k, e) before -> (ts < fst e)%Q) /\
    (forall k e, In (k, e) after -> (ts <= fst e)%Q).
Proof.
  intros Hwf Hmin. unfold py_min in Hmin.
  destruct (dict_keys d) as [|k0 ks] eqn:Hk; [discriminate|].
  injection Hmin as Hmin.
  destruct (min_from_first _ _ _ Hmin) as (l1 & l2 & Heq & H1 & H2).
  rewrite <- Hk in Heq. unfold dict_keys in Heq.
  apply map_eq_app in Heq. destruct Heq as (d1 & d2 & -> & Hd1 & Hd2).
  destruct d2 as [|[m [ts v]] d2]; [discriminate|].
  simpl in Hd2. injection Hd2 as -> Hd2. subst l1 l2.
  assert (Hnin : ~ In oldest (dict_keys d1)).
  { unfold dict_wf, dict_keys in Hwf. rewrite map_app in Hwf. simpl in Hwf.
    apply NoDup_remove_2 in Hwf. intros Hc. apply Hwf.
    apply in_or_app. now left. }
  assert (Hts : created_at (d1 ++ (oldest, (ts, v)) :: d2) oldest = ts).
  { apply created_at_entry with (v := v); [assumption|].
    apply in_or_app. right. now left. }
  exists d1, ts, v, d2. split; [reflexivity|]. split; [assumption|].
  split.
  - intros k [ts' v'] Hin. simpl.
    rewrite <- Hts.
    rewrite <- (@created_at_entry (d1 ++ (oldest, (ts, v)) :: d2) k ts' v').
    + apply H1. apply (in_map fst) in Hin. exact Hin.
    + assumption.
    + apply in_or_app. now left.
  - intros k [ts' v'] Hin. simpl.
    rewrite <- Hts.
    rewrite <- (@created_at_entry (d1 ++ (oldest, (ts, v)) :: d2) k ts' v').
    + apply H2. apply (in_map fst) in Hin. exact Hin.
    + assumption.
    + apply in_or_app. right. now right.
Qed.

Lemma py_min_some (A : Type) (f : A -> Q) (l : list A) :
  l <> [] -> exists m, py_min f l = Some m.
Proof. destruct l; [congruence|]. intros _. simpl. eauto. Qed.

Lemma py_min_in (A : Type) (f : A -> Q) (l : list A) (m : A) :
  py_min f l = Some m -> In m l.
Proof.
  destruct l as [|x l]; [discriminate|]. intros H.
  simpl in H. injection H as H.
  destruct (min_from_first _ _ _ H) as (l1 & l2 & Heq & _).
  rewrite Heq. apply in_or_app. right. now left.
Qed.

Lemma set_evicts c (now : Q) key (value : V) :
  dict_wf (store c) ->
  (max_items c <= Z.of_nat (List.length (store c)))%Z ->
  store c <> [] ->
  exists before oldest ts v after,
    store c = before ++ (oldest, (ts, v)) :: after /\
    (forall k e, In (k, e) before -> (ts < fst e)%Q) /\
    (forall k e, In (k, e) after -> (ts <= fst e)%Q) /\
    set now key value c =
      Some (with_store c (dict_set key (now, value) (before ++ after))).
Proof.
  intros Hwf Hfull Hne. unfold set.
  apply Z.leb_le in Hfull. rewrite Hfull.
  destruct (@py_min_some str (created_at (store c)) (dict_keys (store c)))
    as [oldest Hmin].
  { unfold dict_keys. destruct (store c); [congruence|discriminate]. }
  rewrite Hmin.
  destruct (oldest_key_split Hwf Hmin)
    as (before & ts & v & after & Heq & Hnin & H1 & H2).
  exists before, oldest, ts, v, after.
  repeat split; try assumption.
  rewrite Heq. now rewrite dict_pop_before.
Qed.

Lemma set_keeps_config c (now : Q) key (value : V) c' :
  set now key value c = Some c' ->
  ttl c' = ttl c /\ max_items c' = max_items c.
Proof.
  unfold set.
  destruct (max_items c <=? _)%Z;
    [destruct (py_min _ _)|]; intros [= <-]; auto.
Qed.

Lemma run_call_config c (op : cache_call V) :
  ttl (run_call c op) = ttl c /\ max_items (run_call c op) = max_items c.
Proof.
  destruct op as [now key|now key value]; simpl.
  - unfold get. destruct (dict_get key (store c)) as [[ts v]|]; [|auto].
    destruct (Qlt_bool _ _); auto.
  - destruct (set now key value c) eqn:E; [|auto].
    eapply set_keeps_config; eauto.
Qed.

Lemma run_call_wf c (op : cache_call V) :
  dict_wf (store c) -> dict_wf (store (run_call c op)).
Proof.
  intros Hwf. destruct op as [now key|now key value]; simpl.
  - unfold get. destruct (dict_get key (store c)) as [[ts v]|]; [|auto].
    destruct (Qlt_bool _ _); simpl; [|assumption].
    now apply dict_wf_pop.
  - unfold set. destruct (max_items c <=? _)%Z.
    + destruct (py_min _ _); simpl; [|assumption].
      apply dict_wf_set. now apply dict_wf_pop.
    + simpl. now apply dict_wf_set.
Qed.

Lemma run_call_size c (op : cache_call V) (bound : Z) :
  (max_items c <= bound)%Z ->
  (Z.of_nat (List.length (store c)) <= bound)%Z ->
  (Z.of_nat (List.length (store (run_call c op))) <= bound)%Z.
Proof.
  intros Hb Hle. destruct op as [now key|now key value]; simpl.
  - unfold get. destruct (dict_get key (store c)) as [[ts v]|] eqn:G; [|auto].
    destruct (Qlt_bool _ _); simpl; [|assumption].
    rewrite length_dict_pop, G. lia.
  - unfold set. destruct (max_items c <=? _)%Z eqn:Hfull.
    + destruct (py_min _ _) as [oldest|] eqn:Hmin; simpl; [|assumption].
      apply py_min_in in Hmin.
      pose proof (length_dict_set_le key (now, value)
                    (dict_pop oldest (store c))) as H1.
      rewrite length_dict_pop in H1.
      destruct (dict_get oldest (store c)) eqn:G.
      * apply dict_get_in_keys in G.
        destruct (store c); [contradiction|]. simpl in *. lia.
      * apply dict_get_none in G. contradiction.
    + simpl. apply Z.leb_gt in Hfull.
      pose proof (length_dict_set_le key (now, value) (store c)). lia.
Qed.

Lemma run_calls_inv (P : TTLCache V -> Prop) :
  (forall c op, P c -> P (run_call c op)) ->
  forall ops c, P c -> P (run_calls c ops).
Proof.
  intros Hstep ops. unfold run_calls.
  induction ops as [|op ops IH]; simpl; auto.
Qed.

Lemma run_calls_wf c ops :
  dict_wf (store c) -> dict_wf (store (run_calls c ops)).
Proof.
  apply (run_calls_inv (fun c => dict_wf (store c))).
  intros; now apply run_call_wf.
Qed.

Lemma run_calls_size c ops (bound : Z) :
  (max_items c <= bound)%Z ->
  (Z.of_nat (List.length (store c)) <= bound)%Z ->
  (Z.of_nat (List.length (store (run_calls c ops))) <= bound)%Z /\
  max_items (run_calls c ops) = max_items c.
Proof.
  intros Hb H.
  apply (run_calls_inv
           (fun c' => (Z.of_nat (List.length (store c')) <= bound)%Z
                      /\ max_items c' = max_items c)); [|auto].
  intros c' op [H1 H2]. destruct (run_call_config c' op) as [_ Hm].
  rewrite Hm. split; [|assumption].
  apply run_call_size; [now rewrite H2|assumption].
Qed.
End CacheFacts.

(** C1. Along every sequence of calls on a new cache, the store never
    holds more than [max_items] entries (for a capacity that is not
    negative; in general never more than the larger of [max_items] and
    zero). Whenever [set] evicts (the store has reached [max_items] and
    holds an entry), it removes exactly one entry [oldest], whose
    timestamp is minimal among all entries; on equal timestamps the first
    entry in iteration order goes (every entry before [oldest] is
    strictly younger); the new entry is then written with the current
    time as its timestamp. *)
Theorem set_bounded_evicts_oldest (V : Type) (ttl_seconds mx : Z)
  (ops : list (cache_call V)) :
  let c := run_calls (TTLCache_init ttl_seconds mx) ops in
  (Z.of_nat (List.length (store c)) <= Z.max 0 mx)%Z /\
  ((0 <= mx)%Z -> (Z.of_nat (List.length (store c)) <= mx)%Z) /\
  forall (now : Q) (key : str) (value : V),
    (mx <= Z.of_nat (List.length (store c)))%Z ->
    store c <> [] ->
    exists before oldest ts v after,
      store c = before ++ (oldest, (ts, v)) :: after /\
      (forall k e, In (k, e) before -> (ts < fst e)%Q) /\
      (forall k e, In (k, e) after -> (ts <= fst e)%Q) /\
      set now key value c =
        Some (with_store c (dict_set key (now, value) (before ++ after))) /\
      dict_get key (dict_set key (now, value) (before ++ after))
        = Some (now, value).
Proof.
  intros c.
  assert (Hwf : dict_wf (store c)).
  { apply run_calls_wf. constructor. }
  destruct (@run_calls_size V (TTLCache_init ttl_seconds mx) ops
              (Z.max 0 mx)) as [Hs Hm].
  { simpl. lia. }
  { simpl. lia. }
  fold c in Hs, Hm. simpl in Hm.
  split; [exact Hs|]. split; [lia|].
  intros now key value Hfull Hne.
  rewrite <- Hm in Hfull.
  destruct (@set_evicts V c now key value Hwf Hfull Hne)
    as (before & oldest & ts & v & after & H1 & H2 & H3 & H4).
  exists before, oldest, ts, v, after.
  repeat (split; [assumption|]).
  apply dict_get_set_same.
Qed.

Lemma set_bounded_evicts_oldest_witness :
  let c := run_calls (TTLCache_init 45 2)
             [CallSet 1%Q (u "a") 10; CallSet 1%Q (u "b") 20] in
  (Z.of_nat (List.length (store c)) <= 2)%Z /\
  exists before oldest ts v after,
    store c = before ++ (oldest, (ts, v)) :: after /\
    (forall k e, In (k, e) before -> (ts < fst e)%Q) /\
    (forall k e, In (k, e) after -> (ts <= fst e)%Q) /\
    set 2%Q (u "c") 30 c =
      Some (with_store c (dict_set (u "c") (2%Q, 30) (before ++ after))) /\
    dict_get (u "c") (dict_set (u "c") (2%Q, 30) (before ++ after))
      = Some (2%Q, 30).
Proof.
  intros c.
  destruct (@set_bounded_evicts_oldest nat 45 2
              [CallSet 1%Q (u "a") 10; CallSet 1%Q (u "b") 20])
    as (_ & Hsize & Hevict).
  split.
  - apply Hsize. lia.
  - apply Hevict.
    + vm_compute. discriminate.
    + vm_compute. discriminate.
Defined.



(** C10. With [max_items >= 1], [set] never fails: the scan for the
    oldest key runs on a non-empty store, every key it visits has an
    entry to read the timestamp from, and afterwards the key is in the
    store with the current time as its timestamp. With [max_items = 0]
    the scan runs on the empty store of a new cache and [set] fails. *)
Theorem set_total (V : Type) :
  (forall (c : TTLCache V) (now : Q) (key : str) (value : V),
      (1 <= max_items c)%Z ->
      ((max_items c <= Z.of_nat (List.length (store c)))%Z ->
       store c <> []) /\
      (forall k, In k (dict_keys (store c)) ->
                 exists ts v, dict_get k (store c) = Some (ts, v)) /\
      exists c',
        set now key value c = Some c' /\
        dict_get key (store c') = Some (now, value)) /\
  (forall (ttl_seconds : Z) (now : Q) (key : str) (value : V),
      set now key value (TTLCache_init ttl_seconds 0) = None).
Proof.
  split.
  - intros c now key value Hmx.
    assert (Hne : (max_items c <= Z.of_nat (List.length (store c)))%Z ->
                  store c <> []).
    { intros Hfull Hnil. rewrite Hnil in Hfull. simpl in Hfull. lia. }
    split; [exact Hne|]. split.
    { intros k Hk. destruct (dict_get k (store c)) as [[ts v]|] eqn:G.
      - eauto.
      - apply dict_get_none in G. contradiction. }
    unfold set. destruct (max_items c <=? _)%Z eqn:Hfull.
    + apply Z.leb_le in Hfull.
      destruct (@py_min_some str (created_at (store c))
                  (dict_keys (store c))) as [oldest Hmin].
      { unfold dict_keys. specialize (Hne Hfull).
        destruct (store c); [congruence|discriminate]. }
      rewrite Hmin. eexists. split; [reflexivity|].
      simpl. apply dict_get_set_same.
    + eexists. split; [reflexivity|]. simpl. apply dict_get_set_same.
  - reflexivity.
Qed.

Lemma set_total_witness :
  let c := mkTTLCache 45 1 [(u "a", (3%Q, 10))] in
  exists c', set 5%Q (u "b") 20 c = Some c' /\
             dict_get (u "b") (store c') = Some (5%Q, 20).
Proof.
  intros c.
  destruct (proj1 (@set_total nat) c 5%Q (u "b") 20) as (_ & _ & H).
  - vm_compute. discriminate.
  - exact H.
Defined.

(* ================================================================== *)
(** * Cache keys and the cache-backed routes *)
(* ================================================================== *)

(** C9. Within a process the key of a request is a function of its
    operation, model and input text: two [explain] requests (or two
    [infer] requests) with the same model and text get the same key. An
    [explain] key and an [infer] key are never equal, whatever the models
    and texts, because they begin with different prefixes. *)
Theorem cache_keys_by_operation (hash : str -> Z) :
  (forall r1 r2 : ExplainRequest.t,
      ExplainRequest.model r1 = ExplainRequest.model r2 ->
      ExplainRequest.code r1 = ExplainRequest.code r2 ->
      explain_key hash r1 = explain_key hash r2) /\
  (forall r1 r2 : InferRequest.t,
      InferRequest.model r1 = InferRequest.model r2 ->
      InferRequest.prompt r1 = InferRequest.prompt r2 ->
      infer_key hash r1 = infer_key hash r2) /\
  (forall (e : ExplainRequest.t) (i : InferRequest.t),
      explain_key hash e <> infer_key hash i /\
      firstn 8 (explain_key hash e) = u "explain:" /\
      firstn 6 (infer_key hash i) = u "infer:").
Proof.
  split; [|split].
  - intros r1 r2 Hm Hc. unfold explain_key. now rewrite Hm, Hc.
  - intros r1 r2 Hm Hp. unfold infer_key. now rewrite Hm, Hp.
  - intros e i. unfold explain_key, infer_key.
    split; [|split]; [|reflexivity|reflexivity].
    change (u "explain:") with (101%N :: skipn 1 (u "explain:")).
    change (u "infer:") with (105%N :: skipn 1 (u "infer:")).
    rewrite <- !app_comm_cons. discriminate.
Qed.

Lemma cache_keys_by_operation_witness :
  explain_key (fun _ => 7%Z)
    (ExplainRequest.mk (u "x = 1") (u "qwen3"))
  = explain_key (fun _ => 7%Z)
      (ExplainRequest.mk (u "x = 1") (u "qwen3")) /\
  infer_key (fun _ => 7%Z) (InferRequest.mk (u "qwen3") (u "x = 1"))
  = infer_key (fun _ => 7%Z) (InferRequest.mk (u "qwen3") (u "x = 1")) /\
  explain_key (fun _ => 7%Z) (ExplainRequest.mk (u "x = 1") (u "qwen3"))
  <> infer_key (fun _ => 7%Z) (InferRequest.mk (u "qwen3") (u "x = 1")).
Proof.
  pose proof (@cache_keys_by_operation (fun _ => 7%Z)) as (He & Hi & Hne).
  split; [|split].
  - apply He; reflexivity.
  - apply Hi; reflexivity.
  - apply Hne.
Defined.

(** Each failure of the gateway contract ends the call with an
    [HTTPException]. *)
Lemma gateway_failure_raises (cfg : config) post model prompt :
  gateway_failure cfg post model prompt ->
  exists detail,
    hf_chat_completion cfg post model prompt = HTTPException 500 detail.
Proof.
  unfold hf_chat_completion.
  intros [Htok|r Htok Hr Hst|r data Htok Hr Hst Hj Hshape].
  - rewrite Htok. cbn [null]. eauto.
  - unfold final_response in Hr.
    destruct (HF_API_TOKEN cfg); [congruence|]. cbn [null].
    destruct (post model prompt 0) as [r1|]; [|discriminate].
    rewrite Hr. apply Z.eqb_neq in Hst. rewrite Hst. cbn [negb]. eauto.
  - unfold final_response in Hr.
    destruct (HF_API_TOKEN cfg); [congruence|]. cbn [null].
    destruct (post model prompt 0) as [r1|]; [|discriminate].
    rewrite Hr, Hst. change (negb (200 =? 200)%Z) with false. cbv iota.
    rewrite Hj, Hshape. eauto.
Qed.

Lemma failed_completion (cfg : config) post key field model_key prompt
  (t_get t_set : Q) (c : TTLCache (dict json)) :
  (forall text,
      hf_chat_completion cfg post (select_model_id cfg model_key) prompt
      <> Return text) ->
  snd (cached_completion cfg post key field model_key prompt t_get t_set c)
  = snd (get t_get key c).
Proof.
  intros Hfail. unfold cached_completion.
  destruct (get t_get key c) as [cached c1]. simpl.
  destruct (truthy cached).
  - now destruct cached.
  - destruct (hf_chat_completion cfg post _ prompt) as [text| |];
      [|reflexivity|reflexivity].
    exfalso. now apply (Hfail text).
Qed.

Lemma get_leaves (V : Type) (c : TTLCache V) (now : Q) (key : str) :
  let c' := snd (get now key c) in
  (c' = c \/ c' = with_store c (dict_pop key (store c))) /\
  List.length (store c') <= List.length (store c) /\
  (forall k, k <> key -> dict_get k (store c') = dict_get k (store c)) /\
  ((forall ts v, dict_get key (store c) = Some (ts, v) ->
                 ~ (inject_Z (ttl c) < now - ts)%Q) -> c' = c).
Proof.
  unfold get. destruct (dict_get key (store c)) as [[ts v]|] eqn:G; simpl.
  - destruct (Qlt_bool (inject_Z (ttl c)) (now - ts)) eqn:E; simpl.
    + split; [now right|]. split; [|split].
      * rewrite length_dict_pop, G. lia.
      * intros k Hk. now apply dict_get_pop_other.
      * intros H. exfalso. apply (H ts v eq_refl).
        now apply Qlt_bool_true.
    + repeat split; auto.
  - repeat split; auto.
Qed.

(** C8, as the code has it. When the gateway call of an [explain] or
    [infer] request fails (the token is not configured, the remote
    answers with a status other than 200 after the one retry, the
    response has not the expected shape, or the call raises otherwise),
    [cache.set] is not reached: the cache is left as the lookup at the
    start of the request left it. That is the cache before the request,
    except that an entry of the request's own key that had outlived
    [ttl] is gone; no entry is added, no other key is touched, and
    without such an expired entry the cache is unchanged. *)
Theorem failed_gateway_writes_nothing (cfg : config) (hash : str -> Z)
  (post : str -> str -> nat -> option response)
  (t_get t_set : Q) (c : TTLCache (dict json)) :
  (forall model prompt,
      gateway_failure cfg post model prompt ->
      forall text, hf_chat_completion cfg post model prompt <> Return text) /\
  (forall req : ExplainRequest.t,
      (forall text,
          hf_chat_completion cfg post
            (select_model_id cfg (ExplainRequest.model req))
            (explain_prompt (ExplainRequest.code req)) <> Return text) ->
      let key := explain_key hash req in
      let c' := snd (explain cfg hash post req t_get t_set c) in
      c' = snd (get t_get key c) /\
      List.length (store c') <= List.length (store c) /\
      (forall k, k <> key -> dict_get k (store c') = dict_get k (store c)) /\
      ((forall ts v, dict_get key (store c) = Some (ts, v) ->
                     ~ (inject_Z (ttl c) < t_get - ts)%Q) -> c' = c)) /\
  (forall req : InferRequest.t,
      (forall text,
          hf_chat_completion cfg post
            (select_model_id cfg (InferRequest.model req))
            (InferRequest.prompt req) <> Return text) ->
      let key := infer_key hash req in
      let c' := snd (infer cfg hash post req t_get t_set c) in
      c' = snd (get t_get key c) /\
      List.length (store c') <= List.length (store c) /\
      (forall k, k <> key -> dict_get k (store c') = dict_get k (store c)) /\
      ((forall ts v, dict_get key (store c) = Some (ts, v) ->
                     ~ (inject_Z (ttl c) < t_get - ts)%Q) -> c' = c)).
Proof.
  split.
  { intros model prompt Hfail text.
    destruct (gateway_failure_raises Hfail) as (detail & ->). discriminate. }
  split; intros req Hfail key c'.
  - assert (Hc : c' = snd (get t_get key c)).
    { unfold c', explain. now apply failed_completion. }
    rewrite Hc. split; [reflexivity|].
    destruct (get_leaves c t_get key) as (_ & H2 & H3 & H4). auto.
  - assert (Hc : c' = snd (get t_get key c)).
    { unfold c', infer. now apply failed_completion. }
    rewrite Hc. split; [reflexivity|].
    destruct (get_leaves c t_get key) as (_ & H2 & H3 & H4). auto.
Qed.

Lemma failed_gateway_writes_nothing_witness :
  let hash := fun _ : str => 7%Z in
  let post := fun (_ _ : str) (n : nat) =>
                Some (mkResponse (if Nat.eqb n 0 then 503 else 500)
                        (u "busy") None) in
  let cfg := mkConfig (u "token") (u "m1") (u "m2") in
  let c := mkTTLCache 45 200
             [(u "other", (0%Q, [(u "text", JStr (u "t"))]))] in
  snd (explain cfg hash post
         (ExplainRequest.mk (u "x") (u "qwen3")) 10%Q 10%Q c) = c /\
  snd (infer cfg hash post
         (InferRequest.mk (u "qwen3") (u "x")) 10%Q 10%Q c) = c.
Proof.
  intros hash post cfg c.
  destruct (@failed_gateway_writes_nothing cfg hash post 10%Q 10%Q c)
    as (Hfail & He & Hi).
  assert (Hdown : forall model prompt, gateway_failure cfg post model prompt).
  { intros model prompt.
    apply RemoteError with (r := mkResponse 500 (u "busy") None).
    - discriminate.
    - reflexivity.
    - discriminate. }
  split.
  - destruct (He (ExplainRequest.mk (u "x") (u "qwen3")))
      as (_ & _ & _ & H).
    + apply Hfail, Hdown.
    + apply H. intros ts v G. vm_compute in G. discriminate.
  - destruct (Hi (InferRequest.mk (u "qwen3") (u "x")))
      as (_ & _ & _ & H).
    + apply Hfail, Hdown.
    + apply H. intros ts v G. vm_compute in G. discriminate.
Defined.

(** C8 as stated fails: a request whose own entry has outlived [ttl]
    loses that entry at the lookup, so after the failed gateway call the
    cache differs from the cache before the request. *)
Lemma failed_explain_drops_expired_entry :
  let hash := fun _ : str => 7%Z in
  let post := fun (_ _ : str) (_ : nat) => @None response in
  let req := ExplainRequest.mk (u "x") (u "qwen3") in
  let c := mkTTLCache 45 200
             [(explain_key hash req,
               (0%Q, [(u "explanation", JStr (u "old"))]))] in
  hf_chat_completion default_config post
    (select_model_id default_config (ExplainRequest.model req))
    (explain_prompt (ExplainRequest.code req))
  = HTTPException 500 (u "HF_API_TOKEN not configured.") /\
  store (snd (explain default_config hash post req 100%Q 100%Q c)) = [] /\
  snd (explain default_config hash post req 100%Q 100%Q c) <> c.
Proof.
  intros hash post req c.
  split; [reflexivity|]. split; [vm_compute; reflexivity|].
  intros H. apply (f_equal (fun x => List.length (store x))) in H.
  vm_compute in H. discriminate.
Qed.

(* ================================================================== *)
(** * The normalizer *)
(* ================================================================== *)

Lemma LF_isspace : isspace LF = true.
Proof. reflexivity. Qed.

Ltac bool_to_prop :=
  repeat rewrite ?orb_true_iff, ?andb_true_iff, ?N.leb_le, ?N.eqb_eq in *.

Section StripFacts.
Implicit Types (s l : str) (c : N).

Lemma rstrip_cons_fixed c l :
  rstrip (c :: l) = c :: l -> rstrip l = l.
Proof.
  simpl. destruct (isspace c && null (rstrip l)); [discriminate|].
  now intros [= H].
Qed.

Lemma rstrip_idem s : rstrip (rstrip s) = rstrip s.
Proof.
  induction s as [|c s IH]; simpl; [reflexivity|].
  destruct (isspace c && null (rstrip s)) eqn:E; [reflexivity|].
  simpl. rewrite IH, E. reflexivity.
Qed.

Lemma rstrip_app a b :
  rstrip (a ++ b) = if null (rstrip b) then rstrip a else a ++ rstrip b.
Proof.
  induction a as [|c a IH]; simpl.
  - destruct (rstrip b); reflexivity.
  - rewrite IH. destruct (null (rstrip b)) eqn:E; [reflexivity|].
    destruct (a ++ rstrip b) eqn:E2.
    + apply app_eq_nil in E2. destruct E2 as [_ E2]. rewrite E2 in E.
      discriminate.
    + simpl. now rewrite andb_false_r.
Qed.

Lemma rstrip_length s : List.length (rstrip s) <= List.length s.
Proof.
  induction s as [|c s IH]; simpl; [lia|].
  destruct (isspace c && null (rstrip s)); simpl; lia.
Qed.

(** A text that [rstrip] leaves alone does not end in whitespace. *)
Lemma rstrip_fixed_last b c : rstrip (b ++ [c]) = b ++ [c] -> isspace c = false.
Proof.
  intros H. destruct (isspace c) eqn:E; [|reflexivity].
  rewrite rstrip_app in H. simpl in H. rewrite E in H. simpl in H.
  pose proof (rstrip_length b) as Hl. rewrite H in Hl.
  rewrite length_app in Hl. simpl in Hl. lia.
Qed.

Lemma rstrip_lstrip l : rstrip l = l -> rstrip (lstrip l) = lstrip l.
Proof.
  induction l as [|c l IH]; intros H; [reflexivity|].
  simpl. destruct (isspace c); [|exact H].
  apply IH. eapply rstrip_cons_fixed; eauto.
Qed.

Lemma lstrip_idem s : lstrip (lstrip s) = lstrip s.
Proof.
  induction s as [|c s IH]; simpl; [reflexivity|].
  destruct (isspace c) eqn:E; [exact IH|]. simpl. now rewrite E.
Qed.

(** On a non-empty line without trailing whitespace, [lstrip] stops
    inside the line. *)
Lemma lstrip_app l x :
  rstrip l = l -> l <> [] -> lstrip (l ++ x) = lstrip l ++ x.
Proof.
  induction l as [|c l IH]; intros H Hne; [congruence|].
  simpl. destruct (isspace c) eqn:E; [|reflexivity].
  assert (Hl : rstrip l = l) by (eapply rstrip_cons_fixed; eauto).
  apply IH; [exact Hl|]. intros ->. simpl in H. rewrite E in H.
  discriminate.
Qed.

Lemma lstrip_nonempty l : rstrip l = l -> l <> [] -> lstrip l <> [].
Proof.
  induction l as [|c l IH]; intros H Hne; [congruence|].
  simpl. destruct (isspace c) eqn:E; [|discriminate].
  assert (Hl : rstrip l = l) by (eapply rstrip_cons_fixed; eauto).
  apply IH; [exact Hl|]. intros ->. simpl in H. rewrite E in H.
  discriminate.
Qed.

Lemma strip_fixed_rstrip s : rstrip (strip s) = strip s.
Proof. unfold strip. apply rstrip_lstrip, rstrip_idem. Qed.

Lemma Forall_rstrip (P : N -> Prop) s : Forall P s -> Forall P (rstrip s).
Proof.
  induction 1 as [|c s Hc Hs IH]; simpl; [constructor|].
  destruct (isspace c && null (rstrip s)); constructor; assumption.
Qed.

Lemma Forall_lstrip (P : N -> Prop) s : Forall P s -> Forall P (lstrip s).
Proof.
  induction 1 as [|c s Hc Hs IH]; simpl; [constructor|].
  destruct (isspace c); [assumption|]. now constructor.
Qed.
End StripFacts.

Section LineFacts.
Implicit Types (s l : str) (L : list str).

Lemma join_cons sep l L :
  L <> [] -> join sep (l :: L) = l ++ sep ++ join sep L.
Proof. destruct L; [congruence|reflexivity]. Qed.

Lemma Forall_join (P : N -> Prop) sep L :
  Forall P sep -> Forall (Forall P) L -> Forall P (join sep L).
Proof.
  intros Hsep. induction 1 as [|l L Hl HL IH]; [constructor|].
  destruct L as [|l2 L]; [exact Hl|].
  rewrite join_cons by discriminate.
  apply Forall_app. split; [exact Hl|].
  apply Forall_app. split; assumption.
Qed.

Lemma Forall_splitlines (P : N -> Prop) s b :
  Forall P s -> Forall (Forall P) (splitlines_from b s).
Proof.
  intros H. revert b. induction H as [|c s Hc Hs IH]; intros b; simpl.
  - constructor.
  - destruct (b && (c =? LF)%N); [apply IH|].
    destruct (islinebreak c); [constructor; [constructor|apply IH]|].
    specialize (IH false).
    destruct (splitlines_from false s) as [|l ls].
    + repeat constructor. exact Hc.
    + inversion IH; subst. constructor; [|assumption].
      now constructor.
Qed.

Lemma splitlines_no_linebreak s b :
  Forall (Forall (fun c => islinebreak c = false)) (splitlines_from b s).
Proof.
  revert b. induction s as [|c s IH]; intros b; simpl.
  - constructor.
  - destruct (b && (c =? LF)%N); [apply IH|].
    destruct (islinebreak c) eqn:E; [constructor; [constructor|apply IH]|].
    specialize (IH false).
    destruct (splitlines_from false s) as [|l ls].
    + repeat constructor. exact E.
    + inversion IH; subst. constructor; [|assumption].
      now constructor.
Qed.

(** Cutting a line that holds no line boundary, a line feed and more
    text gives that line and the lines of the rest. *)
Lemma splitlines_line l rest :
  Forall (fun c => islinebreak c = false) l ->
  splitlines_from false (l ++ LF :: rest) = l :: splitlines_from false rest.
Proof.
  induction 1 as [|c l Hc Hl IH]; simpl; [reflexivity|].
  now rewrite Hc, IH.
Qed.

Lemma splitlines_join L :
  Forall (Forall (fun c => islinebreak c = false)) L ->
  L <> [] ->
  splitlines (join [LF] L ++ [LF]) = L.
Proof.
  unfold splitlines. induction 1 as [|l L Hl HL IH]; intros Hne.
  - exfalso. now apply Hne.
  - destruct L as [|l2 L].
    + simpl. now rewrite splitlines_line.
    + rewrite join_cons by discriminate.
      rewrite <- !app_assoc. simpl.
      rewrite splitlines_line by assumption.
      f_equal. apply IH. discriminate.
Qed.

Lemma Forall_drop_blank_start (P : str -> Prop) L :
  Forall P L -> Forall P (drop_blank_start L).
Proof.
  induction 1 as [|l L Hl HL IH]; simpl; [constructor|].
  destruct l; [assumption|]. now constructor.
Qed.

Lemma Forall_drop_blank_end (P : str -> Prop) L :
  Forall P L -> Forall P (drop_blank_end L).
Proof.
  induction 1 as [|l L Hl HL IH]; simpl; [constructor|].
  destruct l, (drop_blank_end L); try constructor; assumption.
Qed.

Lemma Forall_trim_blank (P : str -> Prop) L :
  Forall P L -> Forall P (trim_blank L).
Proof.
  intros H. now apply Forall_drop_blank_start, Forall_drop_blank_end.
Qed.

Lemma join_drop_blank_end_nonempty L :
  drop_blank_end L <> [] -> join [LF] (drop_blank_end L) <> [].
Proof.
  destruct L as [|l L]; simpl; [intros H; congruence|].
  destruct l as [|c l], (drop_blank_end L) as [|r rs];
    intros H; try congruence; simpl; discriminate.
Qed.

Lemma rstrip_join L :
  Forall (fun l => rstrip l = l) L ->
  rstrip (join [LF] L) = join [LF] (drop_blank_end L).
Proof.
  induction 1 as [|l L Hl HL IH]; [reflexivity|].
  destruct L as [|l2 L].
  - simpl. rewrite Hl. now destruct l.
  - rewrite join_cons by discriminate.
    rewrite rstrip_app.
    change ([LF] ++ join [LF] (l2 :: L)) with (LF :: join [LF] (l2 :: L)).
    change (rstrip (LF :: join [LF] (l2 :: L)))
      with (if isspace LF && null (rstrip (join [LF] (l2 :: L)))
            then [] else LF :: rstrip (join [LF] (l2 :: L))).
    rewrite IH, LF_isspace.
    change (drop_blank_end (l :: l2 :: L))
      with (match l, drop_blank_end (l2 :: L) with
            | [], [] => []
            | _, r => l :: r
            end).
    destruct (drop_blank_end (l2 :: L)) as [|r rs] eqn:E.
    + simpl. rewrite Hl. now destruct l.
    + assert (Hne : join [LF] (r :: rs) <> []).
      { rewrite <- E. apply join_drop_blank_end_nonempty.
        rewrite E. discriminate. }
      destruct (join [LF] (r :: rs)) as [|x xs] eqn:EJ; [congruence|].
      cbn [andb null].
      destruct l; cbv iota;
        rewrite (@join_cons [LF] _ (r :: rs)) by discriminate;
        now rewrite EJ.
Qed.

Lemma lstrip_join L :
  Forall (fun l => rstrip l = l) L ->
  lstrip (join [LF] L) = join [LF] (lstrip_first (drop_blank_start L)).
Proof.
  induction 1 as [|l L Hl HL IH]; [reflexivity|].
  destruct l as [|c l].
  - destruct L as [|l2 L]; [reflexivity|].
    rewrite join_cons by discriminate. exact IH.
  - change (drop_blank_start ((c :: l) :: L)) with ((c :: l) :: L).
    destruct L as [|l2 L]; [reflexivity|].
    rewrite join_cons by discriminate.
    unfold lstrip_first.
    rewrite (@join_cons [LF] (lstrip (c :: l)) (l2 :: L)) by discriminate.
    apply lstrip_app; [exact Hl|discriminate].
Qed.

Lemma strip_join L :
  Forall (fun l => rstrip l = l) L ->
  strip (join [LF] L) = join [LF] (lstrip_first (trim_blank L)).
Proof.
  intros H. unfold strip, trim_blank.
  rewrite rstrip_join by assumption.
  apply lstrip_join. now apply Forall_drop_blank_end.
Qed.

Lemma stripped_lines_rstripped code :
  Forall (fun l => rstrip l = l) (stripped_lines code).
Proof.
  unfold stripped_lines. apply Forall_map, Forall_forall.
  intros l _. apply rstrip_idem.
Qed.

(** The normalizer, line by line. *)
Lemma simple_auto_format_lines code :
  simple_auto_format code
  = join [LF] (lstrip_first (trim_blank (stripped_lines code))) ++ [LF].
Proof.
  unfold simple_auto_format. fold (stripped_lines code).
  now rewrite strip_join by apply stripped_lines_rstripped.
Qed.
End LineFacts.

Section NormalForm.
Implicit Types (s l : str) (L : list str).

Lemma replace_no_tab s :
  Forall (fun c => c <> TAB) (replace TAB (u "    ") s).
Proof.
  unfold replace. induction s as [|c s IH]; simpl; [constructor|].
  apply Forall_app. split; [|exact IH].
  destruct (c =? TAB)%N eqn:E.
  - repeat constructor; discriminate.
  - constructor; [|constructor]. now apply N.eqb_neq.
Qed.

Lemma replace_without_tab new s :
  Forall (fun c => c <> TAB) s -> replace TAB new s = s.
Proof.
  unfold replace. induction 1 as [|c s Hc Hs IH]; simpl; [reflexivity|].
  apply N.eqb_neq in Hc. now rewrite Hc, IH.
Qed.

Lemma drop_blank_start_head L T : drop_blank_start L <> [] :: T.
Proof.
  induction L as [|l L IH]; simpl; [discriminate|].
  destruct l; [exact IH|discriminate].
Qed.

Lemma drop_blank_start_idem L :
  drop_blank_start (drop_blank_start L) = drop_blank_start L.
Proof.
  induction L as [|l L IH]; simpl; [reflexivity|].
  destruct l; [exact IH|reflexivity].
Qed.

Lemma drop_blank_end_idem L :
  drop_blank_end (drop_blank_end L) = drop_blank_end L.
Proof.
  induction L as [|l L IH]; simpl; [reflexivity|].
  destruct l as [|c l], (drop_blank_end L) as [|r rs] eqn:E;
    try reflexivity; simpl; simpl in IH; now rewrite IH.
Qed.

Lemma drop_blank_commute L :
  drop_blank_end (drop_blank_start L) = drop_blank_start (drop_blank_end L).
Proof.
  induction L as [|l L IH]; [reflexivity|].
  destruct l as [|c l].
  - change (drop_blank_start ([] :: L)) with (drop_blank_start L).
    rewrite IH. simpl. now destruct (drop_blank_end L).
  - simpl. now destruct (drop_blank_end L).
Qed.

Lemma trim_blank_idem L : trim_blank (trim_blank L) = trim_blank L.
Proof.
  unfold trim_blank.
  now rewrite drop_blank_commute, drop_blank_start_idem, drop_blank_end_idem.
Qed.

Lemma trim_blank_lstrip_first T :
  Forall (fun l => rstrip l = l) T ->
  trim_blank T = T ->
  trim_blank (lstrip_first T) = lstrip_first T.
Proof.
  intros Hr Ht. destruct T as [|l T]; [reflexivity|].
  inversion Hr as [|? ? Hl HT]; subst.
  unfold trim_blank in *. simpl in Ht.
  destruct l as [|c l].
  - exfalso. destruct (drop_blank_end T) as [|r rs].
    + simpl in Ht. discriminate.
    + change (drop_blank_start ([] :: r :: rs))
        with (drop_blank_start (r :: rs)) in Ht.
      exact (drop_blank_start_head _ Ht).
  - assert (Hend : drop_blank_end T = T).
    { destruct (drop_blank_end T); simpl in Ht; congruence. }
    pose proof (@lstrip_nonempty (c :: l) Hl ltac:(discriminate)) as Hne.
    unfold lstrip_first.
    destruct (lstrip (c :: l)) as [|c' l']; [congruence|].
    simpl. rewrite Hend. now destruct T.
Qed.

Lemma normal_lines_fixed code :
  let nl := normal_lines code in
  Forall (fun l => rstrip l = l) nl /\
  trim_blank nl = nl /\
  lstrip_first nl = nl.
Proof.
  unfold normal_lines.
  pose proof (stripped_lines_rstripped code) as Hs.
  assert (Ht : Forall (fun l => rstrip l = l)
                 (trim_blank (stripped_lines code)))
    by now apply Forall_trim_blank.
  split; [|split].
  - destruct (trim_blank (stripped_lines code)) as [|l T]; [constructor|].
    inversion Ht; subst. constructor; [|assumption].
    now apply rstrip_lstrip.
  - apply trim_blank_lstrip_first; [exact Ht|apply trim_blank_idem].
  - destruct (trim_blank (stripped_lines code)) as [|l T]; [reflexivity|].
    simpl. now rewrite lstrip_idem.
Qed.

Lemma normal_lines_chars (P : N -> Prop) code :
  (forall b s, Forall (Forall P) (splitlines_from b s)) ->
  Forall (Forall P) (normal_lines code).
Proof.
  intros Hsplit. unfold normal_lines, stripped_lines, splitlines.
  assert (Ht : Forall (Forall P)
                 (trim_blank
                    (map rstrip
                       (splitlines_from false
                          (replace TAB (u "    ") code))))).
  { apply Forall_trim_blank, Forall_map.
    eapply Forall_impl; [|apply Hsplit].
    intros l. apply Forall_rstrip. }
  destruct (trim_blank _) as [|l T]; [constructor|].
  inversion Ht; subst. constructor; [|assumption].
  now apply Forall_lstrip.
Qed.

Lemma normal_lines_no_tab code :
  Forall (Forall (fun c => c <> TAB)) (normal_lines code).
Proof.
  unfold normal_lines, stripped_lines, splitlines.
  assert (Ht : Forall (Forall (fun c => c <> TAB))
                 (trim_blank
                    (map rstrip
                       (splitlines_from false
                          (replace TAB (u "    ") code))))).
  { apply Forall_trim_blank, Forall_map.
    eapply Forall_impl;
      [|apply Forall_splitlines, replace_no_tab].
    intros l. apply Forall_rstrip. }
  destruct (trim_blank _) as [|l T]; [constructor|].
  inversion Ht; subst. constructor; [|assumption].
  now apply Forall_lstrip.
Qed.

Lemma normal_lines_no_linebreak code :
  Forall (Forall (fun c => islinebreak c = false)) (normal_lines code).
Proof.
  apply normal_lines_chars. intros b s. apply splitlines_no_linebreak.
Qed.

Lemma simple_auto_format_no_tab code :
  Forall (fun c => c <> TAB) (simple_auto_format code).
Proof.
  rewrite simple_auto_format_lines. fold (normal_lines code).
  apply Forall_app. split; [|repeat constructor; discriminate].
  apply Forall_join; [repeat constructor; discriminate|].
  apply normal_lines_no_tab.
Qed.

Lemma simple_auto_format_one_newline code :
  ends_with_one_newline (simple_auto_format code).
Proof.
  unfold simple_auto_format.
  set (body := strip _).
  exists body. split; [reflexivity|].
  intros b Hb.
  pose proof (strip_fixed_rstrip
                (join [LF]
                   (map rstrip
                      (splitlines (replace TAB (u "    ") code))))) as H.
  fold body in H. rewrite Hb in H.
  apply rstrip_fixed_last in H. discriminate.
Qed.

Lemma map_fixed (A : Type) (f : A -> A) (l : list A) :
  Forall (fun x => f x = x) l -> map f l = l.
Proof. induction 1; simpl; congruence. Qed.

Lemma simple_auto_format_idempotent code :
  simple_auto_format (simple_auto_format code) = simple_auto_format code.
Proof.
  rewrite (simple_auto_format_lines code). fold (normal_lines code).
  destruct (normal_lines_fixed code) as (Hr & Ht & Hf).
  pose proof (normal_lines_no_tab code) as Htab.
  pose proof (normal_lines_no_linebreak code) as Hlb.
  destruct (normal_lines code) as [|l L] eqn:E; [reflexivity|].
  rewrite simple_auto_format_lines.
  assert (Hs : stripped_lines (join [LF] (l :: L) ++ [LF]) = l :: L).
  { unfold stripped_lines.
    rewrite replace_without_tab.
    - rewrite splitlines_join by (assumption || discriminate).
      now apply map_fixed.
    - apply Forall_app. split; [|repeat constructor; discriminate].
      apply Forall_join; [repeat constructor; discriminate|assumption]. }
  rewrite Hs, Ht, Hf. reflexivity.
Qed.
End NormalForm.

(** C3 as stated fails: the leading whitespace of the first kept line is
    removed too, although that line is not blank. On a text made of two
    spaces and a letter the specified result keeps the indentation and
    the normalizer does not. *)
Lemma simple_auto_format_strips_first_indent :
  simple_auto_format (py "  x") = py "x\n" /\
  format_as_specified (py "  x") = py "  x\n" /\
  simple_auto_format (py "  x") <> format_as_specified (py "  x").
Proof.
  split; [vm_compute; reflexivity|].
  split; [vm_compute; reflexivity|].
  vm_compute. discriminate.
Qed.

(** C3, as the code has it. The normalizer replaces every tab by four
    spaces, cuts the text at line boundaries, strips the trailing
    whitespace of every line, drops the empty lines at both ends, strips
    the leading whitespace of the first line that is left, joins the
    lines with newlines and closes the text with one newline. The result
    ends with exactly one newline; on the empty text it is a single
    newline; and whenever the first line that is left has no leading
    whitespace the result is the specified one. *)
Theorem simple_auto_format_by_lines (code : str) :
  simple_auto_format code
  = join [LF]
      (lstrip_first
         (trim_blank
            (map rstrip (splitlines (replace TAB (u "    ") code)))))
      ++ [LF] /\
  ends_with_one_newline (simple_auto_format code) /\
  simple_auto_format [] = [LF] /\
  (lstrip_first (trim_blank (stripped_lines code))
   = trim_blank (stripped_lines code) ->
   simple_auto_format code = format_as_specified code).
Proof.
  split; [apply simple_auto_format_lines|].
  split; [apply simple_auto_format_one_newline|].
  split; [reflexivity|].
  intros H. rewrite simple_auto_format_lines, H. reflexivity.
Qed.

Lemma simple_auto_format_by_lines_witness :
  simple_auto_format (py "\nx = 1  \r\n\n\ty\n\n")
  = format_as_specified (py "\nx = 1  \r\n\n\ty\n\n").
Proof.
  apply (@simple_auto_format_by_lines (py "\nx = 1  \r\n\n\ty\n\n")).
  vm_compute. reflexivity.
Defined.

(** C4. The normalizer is idempotent; its result always ends with
    exactly one newline and never holds a tab. *)
Theorem simple_auto_format_canonical (x : str) :
  simple_auto_format (simple_auto_format x) = simple_auto_format x /\
  ends_with_one_newline (simple_auto_format x) /\
  ~ In TAB (simple_auto_format x).
Proof.
  split; [apply simple_auto_format_idempotent|].
  split; [apply simple_auto_format_one_newline|].
  intros Hin.
  pose proof (simple_auto_format_no_tab x) as H.
  rewrite Forall_forall in H. now apply (H TAB).
Qed.

(* ================================================================== *)
(** * The matcher finds a match exactly when there is one *)
(* ================================================================== *)

Section MatcherFacts.
Variable uni_alnum : N -> bool.

Lemma last_char_app prev w1 w2 :
  last_char prev (w1 ++ w2) = last_char (last_char prev w1) w2.
Proof. unfold last_char. apply fold_left_app. Qed.

Lemma rep_greedy_spec (R : Type) p s prev (k : option N -> str -> option R) :
  rep_greedy p prev s k <> None <->
  exists w rest,
    s = w ++ rest /\ Forall (fun c => p c = true) w /\
    k (last_char prev w) rest <> None.
Proof.
  revert prev. induction s as [|c s IH]; intros prev; simpl.
  - split.
    + intros H. exists [], []. auto.
    + intros (w & rest & Hs & _ & Hk).
      symmetry in Hs. apply app_eq_nil in Hs. destruct Hs; subst. exact Hk.
  - destruct (p c) eqn:Hp.
    + destruct (rep_greedy p (Some c) s k) eqn:E.
      * split; [|discriminate]. intros _.
        assert (Hr : rep_greedy p (Some c) s k <> None) by congruence.
        apply IH in Hr. destruct Hr as (w & rest & -> & Hw & Hk).
        exists (c :: w), rest. repeat split; auto.
      * split.
        -- intros H. exists [], (c :: s). auto.
        -- intros (w & rest & Hs & Hw & Hk).
           destruct w as [|c' w]; simpl in Hs.
           ++ subst rest. exact Hk.
           ++ injection Hs as <- ->. exfalso.
              assert (Hr : rep_greedy p (Some c) (w ++ rest) k <> None).
              { apply IH. exists w, rest. inversion Hw; subst. auto. }
              congruence.
    + split.
      * intros H. exists [], (c :: s). auto.
      * intros (w & rest & Hs & Hw & Hk).
        destruct w as [|c' w]; simpl in Hs.
        -- subst rest. exact Hk.
        -- injection Hs as <- ->. inversion Hw; subst. congruence.
Qed.

Lemma rep_lazy_spec (R : Type) p s prev (k : option N -> str -> option R) :
  rep_lazy p prev s k <> None <->
  exists w rest,
    s = w ++ rest /\ Forall (fun c => p c = true) w /\
    k (last_char prev w) rest <> None.
Proof.
  revert prev. induction s as [|c s IH]; intros prev; simpl.
  - destruct (k prev []) eqn:E.
    + split; [|discriminate]. intros _. exists [], [].
      repeat split; auto. simpl. congruence.
    + split; [congruence|].
      intros (w & rest & Hs & _ & Hk).
      symmetry in Hs. apply app_eq_nil in Hs. destruct Hs; subst.
      simpl in Hk. congruence.
  - destruct (k prev (c :: s)) eqn:E.
    + split; [|discriminate]. intros _. exists [], (c :: s).
      repeat split; auto. simpl. congruence.
    + destruct (p c) eqn:Hp.
      * rewrite IH. split.
        -- intros (w & rest & -> & Hw & Hk).
           exists (c :: w), rest. repeat split; auto.
        -- intros (w & rest & Hs & Hw & Hk).
           destruct w as [|c' w]; simpl in Hs.
           ++ subst rest. simpl in Hk. congruence.
           ++ injection Hs as <- ->. inversion Hw; subst.
              exists w, rest. auto.
      * split; [congruence|].
        intros (w & rest & Hs & Hw & Hk).
        destruct w as [|c' w]; simpl in Hs.
        -- subst rest. simpl in Hk. congruence.
        -- injection Hs as <- ->. inversion Hw; subst. congruence.
Qed.

Lemma rep_spec (R : Type) greedy n p s prev
  (k : option N -> str -> option R) :
  rep greedy n p prev s k <> None <->
  exists w rest,
    s = w ++ rest /\ n <= List.length w /\
    Forall (fun c => p c = true) w /\
    k (last_char prev w) rest <> None.
Proof.
  revert s prev. induction n as [|n IH]; intros s prev; simpl.
  - assert (H0 : forall P : str -> str -> Prop,
               (exists w rest, s = w ++ rest /\ P w rest) <->
               (exists w rest, s = w ++ rest /\ 0 <= List.length w
                               /\ P w rest)).
    { intros P. split; intros (w & rest & H1 & H2).
      - exists w, rest. repeat split; auto. lia.
      - exists w, rest. tauto. }
    destruct greedy; [rewrite rep_greedy_spec|rewrite rep_lazy_spec];
      apply (H0 (fun w rest =>
                   Forall (fun c => p c = true) w /\
                   k (last_char prev w) rest <> None)).
  - destruct s as [|c s].
    + split; [congruence|].
      intros (w & rest & Hs & Hn & _).
      symmetry in Hs. apply app_eq_nil in Hs. destruct Hs; subst.
      simpl in Hn. lia.
    + destruct (p c) eqn:Hp.
      * rewrite IH. split.
        -- intros (w & rest & -> & Hn & Hw & Hk).
           exists (c :: w), rest. repeat split; auto. simpl. lia.
        -- intros (w & rest & Hs & Hn & Hw & Hk).
           destruct w as [|c' w]; simpl in Hn; [lia|].
           simpl in Hs. injection Hs as <- ->. inversion Hw; subst.
           exists w, rest. repeat split; auto. lia.
      * split; [congruence|].
        intros (w & rest & Hs & Hn & Hw & Hk).
        destruct w as [|c' w]; simpl in Hn; [lia|].
        simpl in Hs. injection Hs as <- ->. inversion Hw; subst.
        congruence.
Qed.

Lemma blind_of_spec (R : Type)
  (f k : option N -> str -> groups -> option R)
  (P : option N -> str -> str -> Prop) :
  blind k ->
  (forall p s g,
      f p s g <> None <->
      exists w rest,
        s = w ++ rest /\ P p w rest /\ k (last_char p w) rest g <> None) ->
  blind f.
Proof.
  intros Hk Hf p s g1 g2 H.
  destruct (f p s g2) eqn:E; [exfalso|reflexivity].
  assert (H2 : f p s g2 <> None) by congruence.
  apply Hf in H2. destruct H2 as (w & rest & Hs & HP & Hk2).
  assert (H1 : f p s g1 <> None).
  { apply Hf. exists w, rest. repeat split; auto.
    intros Hn. apply Hk2. eapply Hk; eauto. }
  contradiction.
Qed.

Lemma blind_ok (R : Type) (k : option N -> str -> groups -> option R)
  p s g1 g2 :
  blind k -> k p s g1 <> None -> k p s g2 <> None.
Proof. intros Hk H Hn. apply H. eapply Hk; eauto. Qed.

(** The matcher succeeds exactly when the text at the current position
    begins with something the pattern matches and the continuation
    accepts what follows. *)
Lemma rmatch_spec r :
  forall (R : Type) prev s g (k : option N -> str -> groups -> option R),
    blind k ->
    (rmatch uni_alnum r prev s g k <> None <->
     exists w rest,
       s = w ++ rest /\ matches uni_alnum r prev w rest /\
       k (last_char prev w) rest g <> None).
Proof.
  induction r as [|c|p|r1 IH1 r2 IH2|r1 IH1 r2 IH2|greedy n p
                 |i r1 IH1|r1 IH1| | | |];
    intros R prev s g k Hk; simpl.
  - (* Eps *)
    split.
    + intros H. exists [], s. auto.
    + intros (w & rest & -> & -> & H). exact H.
  - (* Lit *)
    destruct s as [|x s].
    + split; [congruence|]. intros (w & rest & Hs & -> & _). discriminate.
    + destruct (x =? c)%N eqn:E.
      * apply N.eqb_eq in E. subst x. split.
        -- intros H. exists [c], s. auto.
        -- intros (w & rest & Hs & -> & H). injection Hs as ->. exact H.
      * apply N.eqb_neq in E. split; [congruence|].
        intros (w & rest & Hs & -> & _). injection Hs as -> _. congruence.
  - (* Cls *)
    destruct s as [|x s].
    + split; [congruence|].
      intros (w & rest & Hs & (c & -> & _) & _). discriminate.
    + destruct (p x) eqn:E.
      * split.
        -- intros H. exists [x], s. repeat split; eauto.
        -- intros (w & rest & Hs & (c & -> & _) & H).
           injection Hs as -> ->. exact H.
      * split; [congruence|].
        intros (w & rest & Hs & (c & -> & Hc) & _).
        injection Hs as -> _. congruence.
  - (* Cat *)
    assert (Hb : blind (fun p' s' g' => rmatch uni_alnum r2 p' s' g' k)).
    { apply blind_of_spec
        with (k := k) (P := fun p w rest => matches uni_alnum r2 p w rest);
        [exact Hk|].
      intros p s0 g0. now apply IH2. }
    rewrite (IH1 _ prev s g _ Hb). split.
    + intros (w1 & rest1 & -> & H1 & H2).
      apply (IH2 _ _ _ _ _ Hk) in H2.
      destruct H2 as (w2 & rest & -> & H2 & H3).
      exists (w1 ++ w2), rest. rewrite app_assoc. split; [reflexivity|].
      split; [exists w1, w2; auto|]. now rewrite last_char_app.
    + intros (w & rest & -> & (w1 & w2 & -> & H1 & H2) & H3).
      exists w1, (w2 ++ rest). rewrite app_assoc. split; [reflexivity|].
      split; [exact H1|].
      apply (IH2 _ _ _ _ _ Hk). exists w2, rest.
      rewrite last_char_app in H3. auto.
  - (* Alt *)
    destruct (rmatch uni_alnum r1 prev s g k) eqn:E.
    + split; [|discriminate]. intros _.
      assert (H : rmatch uni_alnum r1 prev s g k <> None) by congruence.
      apply (IH1 _ _ _ _ _ Hk) in H.
      destruct H as (w & rest & Hs & H1 & H2).
      exists w, rest. auto.
    + rewrite (IH2 _ prev s g k Hk). split.
      * intros (w & rest & Hs & H1 & H2). exists w, rest. auto.
      * intros (w & rest & Hs & [H1|H1] & H2).
        -- exfalso.
           assert (H : rmatch uni_alnum r1 prev s g k <> None).
           { apply (IH1 _ _ _ _ _ Hk). exists w, rest. auto. }
           congruence.
        -- exists w, rest. auto.
  - (* Rep *)
    rewrite rep_spec. split.
    + intros (w & rest & Hs & Hn & Hw & H). exists w, rest. auto.
    + intros (w & rest & Hs & (Hn & Hw) & H). exists w, rest. auto.
  - (* Group *)
    set (k1 := fun prev' s' g' =>
                 k prev' s'
                   ((i, firstn (List.length s - List.length s') s) :: g')).
    assert (Hb : blind k1).
    { intros p0 s0 g1 g2. unfold k1. apply Hk. }
    change (rmatch uni_alnum r1 prev s g k1 <> None <->
            (exists w rest,
                s = w ++ rest /\ matches uni_alnum r1 prev w rest /\
                k (last_char prev w) rest g <> None)).
    rewrite (IH1 _ prev s g k1 Hb). split.
    + intros (w & rest & Hs & H1 & H2). exists w, rest.
      repeat split; auto. unfold k1 in H2. eapply blind_ok; eauto.
    + intros (w & rest & Hs & H1 & H2). exists w, rest.
      repeat split; auto. unfold k1. eapply blind_ok; eauto.
  - (* Look *)
    set (k0 := fun (_ : option N) (_ : str) (g' : groups) => Some g').
    assert (Hb : blind k0) by (intros p0 s0 g1 g2; discriminate).
    change (match rmatch uni_alnum r1 prev s g k0 with
            | Some g' => k prev s g'
            | None => None
            end <> None <->
            (exists w rest,
                s = w ++ rest /\
                (w = [] /\
                 exists w1 rest1,
                   rest = w1 ++ rest1 /\
                   matches uni_alnum r1 prev w1 rest1) /\
                k (last_char prev w) rest g <> None)).
    destruct (rmatch uni_alnum r1 prev s g k0) as [g'|] eqn:E.
    + assert (H : rmatch uni_alnum r1 prev s g k0 <> None) by congruence.
      apply (IH1 _ _ _ _ _ Hb) in H.
      destruct H as (w1 & rest1 & Hs & H1 & _).
      split.
      * intros H. exists [], s. split; [reflexivity|].
        split; [split; [reflexivity|exists w1, rest1; auto]|].
        simpl. eapply blind_ok; eauto.
      * intros (w & rest & -> & (-> & _) & H).
        simpl in H. eapply blind_ok; eauto.
    + split; [congruence|].
      intros (w & rest & -> & (-> & w1 & rest1 & Hs & H1) & _).
      exfalso.
      assert (H : rmatch uni_alnum r1 prev ([] ++ rest) g k0 <> None).
      { apply (IH1 _ _ _ _ _ Hb). exists w1, rest1.
        repeat split; auto. discriminate. }
      congruence.
  - (* Bol *)
    destruct prev as [c|].
    + destruct (c =? LF)%N eqn:E.
      * apply N.eqb_eq in E. subst c. split.
        -- intros H. exists [], s. repeat split; auto.
        -- intros (w & rest & -> & (-> & _) & H). exact H.
      * apply N.eqb_neq in E. split; [congruence|].
        intros (w & rest & _ & (_ & [H|H]) & _); congruence.
    + split.
      * intros H. exists [], s. repeat split; auto.
      * intros (w & rest & -> & (-> & _) & H). exact H.
  - (* Eol *)
    destruct s as [|c s].
    + split.
      * intros H. exists [], []. repeat split; auto.
      * intros (w & rest & Hs & (-> & _) & H). simpl in Hs. subst rest.
        exact H.
    + destruct (c =? LF)%N eqn:E.
      * apply N.eqb_eq in E. subst c. split.
        -- intros H. exists [], (LF :: s). repeat split; eauto.
        -- intros (w & rest & Hs & (-> & _) & H). simpl in Hs. subst rest.
           exact H.
      * apply N.eqb_neq in E. split; [congruence|].
        intros (w & rest & Hs & (-> & [H|(r' & H)]) & _);
          simpl in Hs; subst rest; congruence.
  - (* EndZ *)
    destruct s as [|c s].
    + split.
      * intros H. exists [], []. repeat split; auto.
      * intros (w & rest & Hs & (-> & _) & H). simpl in Hs. subst rest.
        exact H.
    + split; [congruence|].
      intros (w & rest & Hs & (-> & ->) & _). discriminate.
  - (* WordB *)
    destruct (xorb (isword_at uni_alnum prev)
                (isword_at uni_alnum (hd_error s))) eqn:E.
    + split.
      * intros H. exists [], s. repeat split; auto.
        intros Heq. rewrite Heq, xorb_nilpotent in E. discriminate.
      * intros (w & rest & Hs & (-> & _) & H). simpl in Hs. subst rest.
        exact H.
    + split; [congruence|].
      intros (w & rest & Hs & (-> & Hne) & _). simpl in Hs. subst rest.
      apply xorb_eq in E. contradiction.
Qed.
End MatcherFacts.

Section SearchFacts.
Variable uni_alnum : N -> bool.

Lemma match_here_spec r prev s :
  match_here uni_alnum r false prev s <> None <->
  exists w rest, s = w ++ rest /\ matches uni_alnum r prev w rest.
Proof.
  unfold match_here. rewrite rmatch_spec.
  - split.
    + intros (w & rest & Hs & H & _). eauto.
    + intros (w & rest & Hs & H). exists w, rest.
      repeat split; auto. discriminate.
  - intros p s0 g1 g2. discriminate.
Qed.

Lemma search_from_spec r s :
  forall prev,
    search_from uni_alnum r prev s <> None <->
    exists pre w rest,
      s = pre ++ w ++ rest /\
      matches uni_alnum r (last_char prev pre) w rest.
Proof.
  induction s as [|c s IH]; intros prev; simpl.
  - destruct (match_here uni_alnum r false prev []) eqn:E.
    + split; [|discriminate]. intros _.
      assert (H : match_here uni_alnum r false prev [] <> None)
        by congruence.
      apply match_here_spec in H. destruct H as (w & rest & Hs & H).
      exists [], w, rest. auto.
    + split; [congruence|].
      intros (pre & w & rest & Hs & H). exfalso.
      destruct pre; [|discriminate].
      assert (H1 : match_here uni_alnum r false prev [] <> None).
      { apply match_here_spec. exists w, rest. auto. }
      congruence.
  - destruct (match_here uni_alnum r false prev (c :: s)) eqn:E.
    + split; [|discriminate]. intros _.
      assert (H : match_here uni_alnum r false prev (c :: s) <> None)
        by congruence.
      apply match_here_spec in H. destruct H as (w & rest & Hs & H).
      exists [], w, rest. auto.
    + rewrite IH. split.
      * intros (pre & w & rest & -> & H).
        exists (c :: pre), w, rest. auto.
      * intros (pre & w & rest & Hs & H).
        destruct pre as [|c' pre].
        -- exfalso.
           assert (H1 : match_here uni_alnum r false prev (c :: s) <> None).
           { apply match_here_spec. exists w, rest. auto. }
           congruence.
        -- simpl in Hs. injection Hs as <- ->.
           exists pre, w, rest. auto.
Qed.

(** [re.search] is true exactly on the texts that hold a match. *)
Lemma re_search_spec r s :
  re_search uni_alnum r s = true <->
  exists pre w rest,
    s = pre ++ w ++ rest /\ matches uni_alnum r (last_char None pre) w rest.
Proof.
  rewrite <- search_from_spec. unfold re_search.
  destruct (search_from uni_alnum r None s); split;
    congruence || discriminate.
Qed.

Lemma matches_lits t prev w rest :
  matches uni_alnum (lits t) prev w rest <-> w = t.
Proof.
  revert prev w. induction t as [|c t IH]; intros prev w; simpl.
  - tauto.
  - split.
    + intros (w1 & w2 & -> & -> & H). apply IH in H. now subst.
    + intros ->. exists [c], t. repeat split. now apply IH.
Qed.
End SearchFacts.

(* ================================================================== *)
(** * The lint engine: the stub check *)
(* ================================================================== *)

Section StubFacts.
Variable uni_alnum : N -> bool.

Lemma dot_true c : dot c = true <-> c <> LF.
Proof.
  unfold dot. rewrite negb_true_iff. apply N.eqb_neq.
Qed.

Lemma not_rparen_true c : not_rparen c = true <-> c <> 41%N.
Proof.
  unfold not_rparen. rewrite negb_true_iff. apply N.eqb_neq.
Qed.

Lemma length_pos_nonempty (w : str) : 1 <= List.length w <-> w <> [].
Proof.
  destruct w; simpl; split; intros H; try lia; congruence.
Qed.

Lemma stub_pattern_matches prev w rest :
  matches uni_alnum (stub_pattern) prev w rest <->
  exists ws1 sig params ws2 ws3,
    w = u "def" ++ ws1 ++ sig ++ [40%N] ++ params ++ [41%N]
          ++ [58%N] ++ ws2 ++ [LF] ++ ws3 ++ u "pass" /\
    ws1 <> [] /\ Forall (fun c => isspace c = true) ws1 /\
    sig <> [] /\ Forall (fun c => c <> LF) sig /\
    Forall (fun c => c <> 41%N) params /\
    Forall (fun c => isspace c = true) ws2 /\
    Forall (fun c => isspace c = true) ws3 /\
    isword_at uni_alnum (hd_error rest) = false.
Proof.
  unfold stub_pattern, seq. cbn [fold_right matches]. split.
  - intros (w1 & x1 & -> & Hdef
            & ws1 & x2 & -> & [Hn1 Hws1]
            & sig & x3 & -> & [Hn2 Hsig]
            & lp & x4 & -> & ->
            & params & x5 & -> & [_ Hpar]
            & rp & x6 & -> & ->
            & col & x7 & -> & ->
            & ws2 & x8 & -> & [_ Hws2]
            & nl & x9 & -> & ->
            & ws3 & x10 & -> & [_ Hws3]
            & pass & x11 & -> & Hpass
            & wb & x12 & -> & [-> Hwb] & ->).
    apply matches_lits in Hdef. apply matches_lits in Hpass. subst w1 pass.
    exists ws1, sig, params, ws2, ws3.
    split; [now rewrite !app_nil_r|].
    split; [now apply length_pos_nonempty|].
    split; [exact Hws1|].
    split; [now apply length_pos_nonempty|].
    split; [eapply Forall_impl; [|exact Hsig]; intros c; apply dot_true|].
    split; [eapply Forall_impl; [|exact Hpar];
            intros c; apply not_rparen_true|].
    split; [exact Hws2|]. split; [exact Hws3|].
    change (last_char _ (u "pass")) with (Some 115%N) in Hwb.
    change (isword_at uni_alnum (Some 115%N)) with true in Hwb.
    simpl in Hwb.
    destruct (isword_at uni_alnum (hd_error rest)); congruence.
  - intros (ws1 & sig & params & ws2 & ws3 & -> & Hn1 & Hws1 & Hn2 & Hsig
            & Hpar & Hws2 & Hws3 & Hwb).
    exists (u "def"), (ws1 ++ sig ++ [40%N] ++ params ++ [41%N]
                         ++ [58%N] ++ ws2 ++ [LF] ++ ws3 ++ u "pass").
    split; [reflexivity|]. split; [now apply matches_lits|].
    exists ws1, (sig ++ [40%N] ++ params ++ [41%N]
                   ++ [58%N] ++ ws2 ++ [LF] ++ ws3 ++ u "pass").
    split; [reflexivity|].
    split; [split; [now apply length_pos_nonempty|exact Hws1]|].
    exists sig, ([40%N] ++ params ++ [41%N]
                   ++ [58%N] ++ ws2 ++ [LF] ++ ws3 ++ u "pass").
    split; [reflexivity|].
    split; [split; [now apply length_pos_nonempty|]|].
    { eapply Forall_impl; [|exact Hsig]. intros c; apply dot_true. }
    exists [40%N], (params ++ [41%N]
                      ++ [58%N] ++ ws2 ++ [LF] ++ ws3 ++ u "pass").
    split; [reflexivity|]. split; [reflexivity|].
    exists params, ([41%N] ++ [58%N] ++ ws2 ++ [LF] ++ ws3 ++ u "pass").
    split; [reflexivity|].
    split; [split; [lia|]|].
    { eapply Forall_impl; [|exact Hpar]. intros c; apply not_rparen_true. }
    exists [41%N], ([58%N] ++ ws2 ++ [LF] ++ ws3 ++ u "pass").
    split; [reflexivity|]. split; [reflexivity|].
    exists [58%N], (ws2 ++ [LF] ++ ws3 ++ u "pass").
    split; [reflexivity|]. split; [reflexivity|].
    exists ws2, ([LF] ++ ws3 ++ u "pass").
    split; [reflexivity|]. split; [split; [lia|exact Hws2]|].
    exists [LF], (ws3 ++ u "pass").
    split; [reflexivity|]. split; [reflexivity|].
    exists ws3, (u "pass").
    split; [reflexivity|]. split; [split; [lia|exact Hws3]|].
    exists (u "pass"), [].
    split; [now rewrite app_nil_r|]. split; [now apply matches_lits|].
    exists [], [].
    split; [reflexivity|]. split; [|reflexivity].
    split; [reflexivity|].
    change (last_char _ (u "pass")) with (Some 115%N).
    change (isword_at uni_alnum (Some 115%N)) with true.
    simpl. rewrite Hwb. discriminate.
Qed.

Lemma stub_search_shape code :
  re_search uni_alnum stub_pattern code = true <->
  stub_shape uni_alnum code.
Proof.
  rewrite re_search_spec. unfold stub_shape. split.
  - intros (pre & w & rest & -> & H).
    apply stub_pattern_matches in H.
    destruct H as (ws1 & sig & params & ws2 & ws3 & -> & H).
    exists pre, ws1, sig, params, ws2, ws3, rest. auto.
  - intros (pre & ws1 & sig & params & ws2 & ws3 & rest & -> & H).
    exists pre, (u "def" ++ ws1 ++ sig ++ [40%N] ++ params ++ [41%N]
                   ++ [58%N] ++ ws2 ++ [LF] ++ ws3 ++ u "pass"), rest.
    split; [reflexivity|].
    apply stub_pattern_matches.
    exists ws1, sig, params, ws2, ws3. auto.
Qed.

Lemma in_append_if (x y : str) (b : bool) (l : list str) :
  In x (if b then l ++ [y] else l) <-> In x l \/ (b = true /\ x = y).
Proof.
  destruct b.
  - rewrite in_app_iff. simpl. intuition.
  - intuition congruence.
Qed.

(** The stub finding is in the result exactly when the stub check
    fires. *)
Lemma stub_finding_fires code :
  In finding_stub (lint_like_findings uni_alnum code) <->
  re_search uni_alnum stub_pattern code = true.
Proof.
  unfold lint_like_findings. cbv zeta.
  rewrite !in_append_if. simpl.
  split.
  - intros [[[[[[[[]|[_ H]]|[_ H]]|[_ H]]|[_ H]]|[H _]]|[_ H]]|[_ H]];
      try exact H; vm_compute in H; discriminate.
  - intros H. left. left. right. auto.
Qed.
End StubFacts.

(** C7 as stated fails in both directions: a function whose body goes on
    after an initial [pass] is reported, and a function whose whole body
    is a [pass] on the line of the [def] is not. *)
Lemma stub_check_reads_first_statement_only :
  In finding_stub
    (lint_like_findings (fun _ => false)
       (py "def f():\n    pass\n    return 1\n")) /\
  ~ In finding_stub
      (lint_like_findings (fun _ => false) (py "def f(): pass\n")).
Proof.
  rewrite !stub_finding_fires. split.
  - vm_compute. reflexivity.
  - vm_compute. discriminate.
Qed.

(** C7, as the code has it. The stub finding is reported exactly when
    the text holds a [def], whitespace, at least one character on that
    line, a parenthesised parameter list, a colon, whitespace with a line
    feed in it, and then the word [pass]: a function header followed, on
    a later line, by a body that begins with [pass]. What comes after
    that [pass] is not looked at, so a body with further statements is
    reported as well, and a [pass] on the line of the header is not. *)
Theorem stub_finding_by_shape (uni_alnum : N -> bool) :
  (forall code,
      In finding_stub (lint_like_findings uni_alnum code) <->
      stub_shape uni_alnum code) /\
  (forall pre rest,
      isword_at uni_alnum (hd_error rest) = false ->
      In finding_stub
        (lint_like_findings uni_alnum
           (pre ++ py "def f():\n    pass" ++ rest))) /\
  ~ In finding_stub (lint_like_findings uni_alnum (py "def f(): pass\n")).
Proof.
  split; [|split].
  - intros code. rewrite stub_finding_fires. apply stub_search_shape.
  - intros pre rest Hrest.
    rewrite stub_finding_fires. apply stub_search_shape.
    exists pre, [SPACE], [102%N], [], [], (u "    "), rest.
    split; [reflexivity|].
    split; [discriminate|].
    split; [repeat constructor|].
    split; [discriminate|].
    split; [repeat constructor; discriminate|].
    split; [constructor|].
    split; [constructor|].
    split; [repeat constructor|].
    exact Hrest.
  - rewrite stub_finding_fires. vm_compute. discriminate.
Qed.

Lemma stub_finding_by_shape_witness :
  In finding_stub
    (lint_like_findings (fun _ => false)
       (py "x = 1\n" ++ py "def f():\n    pass" ++ py "\n    return 1\n")) /\
  stub_shape (fun _ => false) (py "def f():\n    pass\n").
Proof.
  pose proof (@stub_finding_by_shape (fun _ => false)) as (Hiff & Hbody & _).
  split.
  - apply Hbody. reflexivity.
  - apply Hiff. apply stub_finding_fires. vm_compute. reflexivity.
Defined.

(* ================================================================== *)
(** * The duplicate detector and the orchestrator *)
(* ================================================================== *)

Section DuplicateFacts.
Variable uni_alnum : N -> bool.



End DuplicateFacts.

Section SubFacts.
Variable uni_alnum : N -> bool.

Lemma run_length_le p s : run_length p s <= List.length s.
Proof.
  induction s as [|c s IH]; simpl; [lia|]. destruct (p c); lia.
Qed.

(** A greedy repetition whose continuation accepts the longest run stops
    there. *)
Lemma rep_greedy_longest (R : Type) p s prev
  (k : option N -> str -> option R) x :
  k (last_char prev (firstn (run_length p s) s)) (skipn (run_length p s) s)
  = Some x ->
  rep_greedy p prev s k = Some x.
Proof.
  revert prev. induction s as [|c s IH]; intros prev; simpl.
  - auto.
  - destruct (p c); [|auto]. simpl. intros H. now rewrite (IH _ H).
Qed.

Lemma match_here_spaces must_advance prev s :
  match_here uni_alnum spaces_pattern must_advance prev s =
  match s with
  | c :: s' =>
      if isspace c then Some (S (run_length isspace s'), []) else None
  | [] => None
  end.
Proof.
  unfold match_here, spaces_pattern. simpl.
  destruct s as [|c s]; [reflexivity|].
  destruct (isspace c); [|reflexivity].
  apply rep_greedy_longest.
  rewrite length_skipn.
  pose proof (run_length_le isspace s) as Hle.
  replace (List.length (c :: s) - (List.length s - run_length isspace s))
    with (S (run_length isspace s)) by (cbn [List.length]; lia).
  simpl. now rewrite andb_false_r.
Qed.

(** [re.sub(r"\s+", "", body)] removes the whitespace of [body]. *)
Lemma sub_from_spaces s :
  forall prev skip,
    skip <= run_length isspace s ->
    sub_from uni_alnum spaces_pattern [] prev s skip
    = filter (fun c => negb (isspace c)) s.
Proof.
  induction s as [|c s IH]; intros prev skip Hskip.
  - simpl in Hskip. assert (skip = 0) by lia. subst skip. reflexivity.
  - destruct skip as [|n].
    + cbn [sub_from]. rewrite match_here_spaces. simpl.
      destruct (isspace c) eqn:E; simpl.
      * apply IH. lia.
      * f_equal. apply IH. lia.
    + simpl in Hskip. destruct (isspace c) eqn:E; [|lia].
      cbn [sub_from]. simpl. rewrite E. simpl. apply IH. lia.
Qed.

Lemma body_key_filter (m : str * str) :
  body_key uni_alnum m = filter (fun c => negb (isspace c)) (snd m).
Proof.
  unfold body_key, re_sub. apply sub_from_spaces. lia.
Qed.
End SubFacts.

(* ================================================================== *)
(** * What the function pattern extracts from definitions at the margin *)
(* ================================================================== *)

Section ExtractionFacts.
Variable uni_alnum : N -> bool.







Lemma lstrip_split (s : str) :
  exists w, s = w ++ lstrip s /\
            Forall (fun c => isspace c = true) w /\
            run_length isspace (lstrip s) = 0.
Proof.
  induction s as [|c s (w & Hs & Hw & Hr)]; simpl.
  - exists []. repeat split; auto.
  - destruct (isspace c) eqn:E.
    + exists (c :: w). simpl. rewrite <- Hs. repeat split; auto.
    + exists []. simpl. rewrite E. repeat split; auto.
Qed.


End ExtractionFacts.

Section FunctionPatternFacts.
Variable uni_alnum : N -> bool.

Local Abbreviation accept :=
  (fun (_ : option N) (_ : str) (g' : groups) => Some g').










End FunctionPatternFacts.

Section FindallFacts.
Variable uni_alnum : N -> bool.





Lemma filter_lstrip (s : str) :
  filter (fun c => negb (isspace c)) (lstrip s)
  = filter (fun c => negb (isspace c)) s.
Proof.
  induction s as [|c s IH]; [reflexivity|].
  simpl. destruct (isspace c) eqn:E; simpl; [exact IH|]. now rewrite E.
Qed.



End FindallFacts.



(** C6. [analyze] on the empty text returns a single newline as the
    formatted text, no finding, and exactly the general suggestion. For
    every text, when no pair of duplicates is found the refactors are
    exactly the one general suggestion, and otherwise they are one
    suggestion for each pair, in order, naming both symbols. *)
Theorem analyze_refactors (uni_alnum : N -> bool) :
  analyze uni_alnum [] = mkAnalysis [LF] [] [general_refactor] /\
  (forall code,
      find_duplicate_functions uni_alnum code = [] ->
      refactors (analyze uni_alnum code) = [general_refactor]) /\
  (forall code,
      find_duplicate_functions uni_alnum code <> [] ->
      refactors (analyze uni_alnum code)
      = map duplicate_refactor (find_duplicate_functions uni_alnum code)) /\
  (forall a b,
      symbol (duplicate_refactor (a, b)) = a ++ u " & " ++ b /\
      suggestion (duplicate_refactor (a, b))
      = u "Functions `" ++ a ++ u "` and `" ++ b
          ++ u "` have identical bodies. Extract a single helper and reuse.").
Proof.
  split; [|split; [|split]].
  - vm_compute. reflexivity.
  - intros code H. unfold analyze. now rewrite H.
  - intros code H. unfold analyze.
    destruct (find_duplicate_functions uni_alnum code); [congruence|].
    reflexivity.
  - intros a b. split; reflexivity.
Qed.

Lemma analyze_refactors_witness :
  refactors (analyze (fun _ => false) (py "x = 1")) = [general_refactor] /\
  refactors (analyze (fun _ => false) two_functions)
  = map duplicate_refactor
      (find_duplicate_functions (fun _ => false) two_functions).
Proof.
  pose proof (@analyze_refactors (fun _ => false)) as (_ & Hnone & Hsome & _).
  split.
  - apply Hnone. vm_compute. reflexivity.
  - apply Hsome. vm_compute. discriminate.
Defined.

(* ================================================================== *)
(** * Further properties of the TTL cache *)
(* ================================================================== *)

Section CacheMore.
Variable V : Type.
Implicit Types (c : TTLCache V) (k key : str).

Lemma set_succeeds c (now : Q) key (value : V) :
  (1 <= max_items c)%Z ->
  exists d, set now key value c = Some (with_store c d) /\
            dict_get key d = Some (now, value).
Proof.
  intros Hmx. unfold set. destruct (max_items c <=? _)%Z eqn:Hfull.
  - apply Z.leb_le in Hfull.
    destruct (@py_min_some str (created_at (store c))
                (dict_keys (store c))) as [oldest Hmin].
    { unfold dict_keys. destruct (store c); simpl in *; [lia|discriminate]. }
    rewrite Hmin. eexists. split; [reflexivity|].
    apply dict_get_set_same.
  - eexists. split; [reflexivity|]. apply dict_get_set_same.
Qed.
End CacheMore.



Section DictMore.
Variable V : Type.
Implicit Types (d : dict V) (k : str) (v : V).

Lemma dict_set_new k v d :
  dict_get k d = None -> dict_set k v d = d ++ [(k, v)].
Proof.
  induction d as [|[k' v'] d IH]; simpl; [reflexivity|].
  case_key k k'; [discriminate|]. intros H. now rewrite IH.
Qed.

End DictMore.



(** X3. Overwriting in a full cache still evicts. When the store has
    reached [max_items], a [set] of a key that is already cached first
    removes the oldest entry all the same: if that is another key, the
    store ends one entry short of where it was and the oldest key is
    gone; if it is the key itself, the key moves to the end of the store
    with its new value. *)
Theorem set_full_overwrite (V : Type) (ttl_seconds mx : Z)
  (ops : list (cache_call V)) (now : Q) (key : str) (value : V) :
  let c := run_calls (TTLCache_init ttl_seconds mx) ops in
  (mx <= Z.of_nat (List.length (store c)))%Z ->
  (exists e, dict_get key (store c) = Some e) ->
  exists oldest c',
    py_min (created_at (store c)) (dict_keys (store c)) = Some oldest /\
    set now key value c = Some c' /\
    dict_get key (store c') = Some (now, value) /\
    (key <> oldest ->
     dict_get oldest (store c') = None /\
     S (List.length (store c')) = List.length (store c)) /\
    (key = oldest ->
     List.length (store c') = List.length (store c) /\
     exists front, store c' = front ++ [(key, (now, value))]).
Proof.
  intros c Hfull [e He].
  assert (Hwf : dict_wf (store c)) by (apply run_calls_wf; constructor).
  assert (Hm : max_items c = mx).
  { destruct (@run_calls_size V (TTLCache_init ttl_seconds mx) ops
                (Z.max 0 mx)) as [_ Hm]; simpl; try lia. exact Hm. }
  destruct (@py_min_some str (created_at (store c)) (dict_keys (store c)))
    as [oldest Hmin].
  { apply dict_get_in_keys in He. intros Hnil. rewrite Hnil in He.
    contradiction. }
  exists oldest.
  eexists. split; [exact Hmin|].
  unfold set. rewrite Hm. apply Z.leb_le in Hfull. rewrite Hfull, Hmin.
  split; [reflexivity|]. simpl.
  split; [apply dict_get_set_same|].
  assert (Hold : exists eo, dict_get oldest (store c) = Some eo).
  { apply py_min_in in Hmin.
    destruct (dict_get oldest (store c)) eqn:G; [eauto|].
    apply dict_get_none in G. contradiction. }
  destruct Hold as [eo Hold].
  split.
  - intros Hne. split.
    + rewrite dict_get_set_other by congruence.
      now apply dict_get_pop_same.
    + rewrite length_dict_set, dict_get_pop_other, He by congruence.
      rewrite length_dict_pop, Hold.
      apply dict_get_some_in in Hold.
      destruct (store c); [contradiction|reflexivity].
  - intros <-.
    assert (Hgone : dict_get key (dict_pop key (store c)) = None)
      by now apply dict_get_pop_same.
    split.
    + rewrite length_dict_set, Hgone, length_dict_pop, He.
      apply dict_get_some_in in He.
      destruct (store c); [contradiction|reflexivity].
    + eexists. now apply dict_set_new.
Qed.

Lemma set_full_overwrite_witness :
  let c := run_calls (TTLCache_init 45 2)
             [CallSet 1%Q (u "a") 10; CallSet 2%Q (u "b") 20] in
  exists oldest c',
    py_min (created_at (store c)) (dict_keys (store c)) = Some oldest /\
    set 3%Q (u "b") 30 c = Some c' /\
    dict_get (u "b") (store c') = Some (3%Q, 30) /\
    (u "b" <> oldest ->
     dict_get oldest (store c') = None /\
     S (List.length (store c')) = List.length (store c)) /\
    (u "b" = oldest ->
     List.length (store c') = List.length (store c) /\
     exists front, store c' = front ++ [(u "b", (3%Q, 30))]).
Proof.
  intros c.
  apply (@set_full_overwrite nat 45 2
           [CallSet 1%Q (u "a") 10; CallSet 2%Q (u "b") 20] 3%Q (u "b") 30).
  - vm_compute. discriminate.
  - exists (2%Q, 20). reflexivity.
Defined.

Lemma min_from_best (A : Type) (f : A -> Q) (best : A) (l : list A) :
  Forall (fun x => (f best <= f x)%Q) l -> min_from f best l = best.
Proof.
  induction 1 as [|x l Hx _ IH]; simpl; [reflexivity|].
  apply Qlt_bool_false in Hx. now rewrite Hx.
Qed.

Lemma nondecreasing_app (l1 l2 : list Q) :
  nondecreasing (l1 ++ l2) -> nondecreasing l1 /\ nondecreasing l2.
Proof.
  induction l1 as [|t l1 IH]; simpl; [tauto|].
  intros [Hall Hrest]. apply Forall_app in Hall.
  destruct (IH Hrest). tauto.
Qed.

Lemma lastn_split (A : Type) (n : nat) (pre l : list A) :
  List.length l = Nat.min n (List.length (pre ++ l)) ->
  lastn n (pre ++ l) = l.
Proof.
  intros Hlen. unfold lastn. rewrite length_app in *.
  replace (List.length pre + List.length l - n)
    with (List.length pre + 0) by lia.
  now rewrite skipn_app, Nat.add_0_r, skipn_all, Nat.sub_diag.
Qed.

Section Fifo.
Variable V : Type.

Local Abbreviation stamp := (fun e : str * (Q * V) => fst (snd e)).

(** One write of a new key into a store whose entries are in the order
    of their timestamps: the head of the store is the oldest entry. *)
Lemma set_fifo_step (t mx : Z) (d : dict (Q * V)) (now : Q) (key : str)
  (value : V) :
  (1 <= mx)%Z ->
  dict_wf d ->
  nondecreasing (map stamp d) ->
  ~ In key (dict_keys d) ->
  set now key value (mkTTLCache t mx d) =
  Some (mkTTLCache t mx
          ((if (mx <=? Z.of_nat (List.length d))%Z then tl d else d)
           ++ [(key, (now, value))])).
Proof.
  intros Hmx Hwf Hsorted Hnew. unfold set, with_store. simpl.
  destruct (mx <=? Z.of_nat (List.length d))%Z eqn:Hfull.
  - destruct d as [|[k0 [t0 v0]] d']; [apply Z.leb_le in Hfull; simpl in *; lia|].
    simpl dict_keys. simpl py_min.
    rewrite min_from_best.
    + simpl. rewrite str_eqb_refl.
      rewrite dict_set_new; [reflexivity|].
      apply dict_get_none. simpl in Hnew. tauto.
    + simpl in Hsorted. destruct Hsorted as [Hall _].
      rewrite Forall_forall in *. intros k Hk.
      apply in_map_iff in Hk. destruct Hk as ([k' [ts v]] & <- & Hin).
      cbn [fst].
      rewrite (@created_at_entry V _ k0 t0 v0 Hwf) by now left.
      rewrite (@created_at_entry V _ k' ts v Hwf) by now right.
      apply Hall. apply in_map_iff. exists (k', (ts, v)). auto.
  - rewrite dict_set_new; [reflexivity|]. now apply dict_get_none.
Qed.

Lemma writes_fifo (t mx : Z) (ws : list (Q * str * V)) :
  (1 <= mx)%Z ->
  NoDup (map (@write_key V) ws) ->
  nondecreasing (map (@write_time V) ws) ->
  exists pre d,
    run_calls (TTLCache_init t mx) (map (@write_call V) ws)
      = mkTTLCache t mx d /\
    map (@write_entry V) ws = pre ++ d /\
    List.length d = Nat.min (Z.to_nat mx) (List.length (pre ++ d)).
Proof.
  intros Hmx. induction ws as [|[[now key] value] ws IH] using rev_ind.
  - intros _ _. exists [], []. simpl. repeat split. now rewrite Nat.min_0_r.
  - rewrite !map_app. simpl map. intros Hnd Hsorted.
    destruct (nondecreasing_app _ _ Hsorted) as [Hsorted' _].
    assert (Hnd' := NoDup_remove_1 _ [] _ Hnd).
    rewrite app_nil_r in Hnd'.
    destruct (IH Hnd' Hsorted') as (pre & d & Hrun & Hsplit & Hlen).
    assert (Hkeys : map (@write_key V) ws = dict_keys (pre ++ d)).
    { rewrite <- Hsplit. unfold dict_keys. rewrite map_map.
      apply map_ext. now intros [[? ?] ?]. }
    assert (Htimes : map (@write_time V) ws = map stamp (pre ++ d)).
    { rewrite <- Hsplit. rewrite map_map.
      apply map_ext. now intros [[? ?] ?]. }
    assert (Hwf : dict_wf d).
    { unfold dict_wf. rewrite Hkeys in Hnd'. unfold dict_keys in Hnd'.
      rewrite map_app in Hnd'. now apply NoDup_app_remove_l in Hnd'. }
    assert (Hsd : nondecreasing (map stamp d)).
    { rewrite Htimes, map_app in Hsorted'.
      now apply nondecreasing_app in Hsorted'. }
    assert (Hnew : ~ In key (dict_keys d)).
    { apply NoDup_remove_2 in Hnd. rewrite app_nil_r, Hkeys in Hnd.
      unfold dict_keys in *. rewrite map_app, in_app_iff in Hnd. tauto. }
    unfold run_calls in *. rewrite fold_left_app, Hrun. simpl.
    rewrite (@set_fifo_step t mx d now key value Hmx Hwf Hsd Hnew).
    rewrite Hsplit.
    destruct (mx <=? Z.of_nat (List.length d))%Z eqn:Hfull.
    + apply Z.leb_le in Hfull.
      destruct d as [|e d']; [simpl in Hfull; lia|].
      exists (pre ++ [e]), (d' ++ [(key, (now, value))]).
      split; [reflexivity|]. split.
      * now rewrite <- !app_assoc.
      * rewrite !length_app in *. simpl in *. lia.
    + apply Z.leb_gt in Hfull.
      exists pre, (d ++ [(key, (now, value))]).
      split; [reflexivity|]. split.
      * now rewrite <- !app_assoc.
      * rewrite !length_app in *. simpl in *. lia.
Qed.
End Fifo.

(** X4. First in, first out. On a new cache with room for at least one
    entry, after any sequence of writes under pairwise distinct keys, made
    while the clock does not go back, the store holds exactly the last
    [max_items] writes, in the order they were made: eviction by smallest
    timestamp removes entries in the order of their arrival. *)
Theorem cache_keeps_latest_writes (V : Type) (ttl_seconds mx : Z)
  (ws : list (Q * str * V)) :
  (1 <= mx)%Z ->
  NoDup (map (@write_key V) ws) ->
  nondecreasing (map (@write_time V) ws) ->
  store (run_calls (TTLCache_init ttl_seconds mx) (map (@write_call V) ws))
  = lastn (Z.to_nat mx) (map (@write_entry V) ws).
Proof.
  intros Hmx Hnd Hsorted.
  destruct (writes_fifo ttl_seconds ws Hmx Hnd Hsorted)
    as (pre & d & -> & -> & Hlen).
  simpl. symmetry. now apply lastn_split.
Qed.

Lemma cache_keeps_latest_writes_witness :
  store (run_calls (TTLCache_init 45 2)
           (map (@write_call nat)
              [(1%Q, u "a", 1); (1%Q, u "b", 2); (3%Q, u "c", 3)]))
  = [(u "b", (1%Q, 2)); (u "c", (3%Q, 3))].
Proof.
  rewrite (@cache_keeps_latest_writes nat 45 2
             [(1%Q, u "a", 1); (1%Q, u "b", 2); (3%Q, u "c", 3)]).
  - reflexivity.
  - lia.
  - repeat constructor; vm_compute; intuition discriminate.
  - repeat constructor; vm_compute; discriminate.
Defined.

Section Reads.
Variable V : Type.

End Reads.



(** X6. A cache without room stores nothing. With [max_items] zero or
    negative, every [set] on a new cache raises (the scan for the oldest
    key runs on an empty store) and leaves the store empty, so after any
    sequence of calls the store is still empty, every further [set]
    raises and every [get] returns nothing. *)
Theorem cache_without_room (V : Type) (ttl_seconds mx : Z)
  (ops : list (cache_call V)) :
  (mx <= 0)%Z ->
  let c := run_calls (TTLCache_init ttl_seconds mx) ops in
  c = TTLCache_init ttl_seconds mx /\
  (forall now key value, set now key value c = None) /\
  (forall now key, get now key c = (None, c)).
Proof.
  intros Hmx c.
  assert (Hset : forall now key (value : V),
            set now key value (TTLCache_init ttl_seconds mx) = None).
  { intros now key value. unfold set. simpl.
    destruct (mx <=? 0)%Z eqn:E; [reflexivity|].
    apply Z.leb_gt in E. lia. }
  assert (Hc : c = TTLCache_init ttl_seconds mx).
  { subst c. unfold run_calls.
    induction ops as [|op ops IH] using rev_ind; [reflexivity|].
    rewrite fold_left_app. simpl. rewrite IH.
    destruct op as [now key | now key value]; simpl; [reflexivity|].
    now rewrite Hset. }
  rewrite Hc. split; [reflexivity|]. split; [exact Hset|]. reflexivity.
Qed.

Lemma cache_without_room_witness :
  run_calls (TTLCache_init 45 0)
    [CallSet 1%Q (u "a") 1; CallGet 2%Q (u "a"); CallSet 3%Q (u "b") 2]
  = @TTLCache_init nat 45 0.
Proof.
  destruct (@cache_without_room nat 45 0
              [CallSet 1%Q (u "a") 1; CallGet 2%Q (u "a");
               CallSet 3%Q (u "b") 2]) as (H & _).
  - lia.
  - exact H.
Defined.

(* ================================================================== *)
(** * Further properties of the model gateway *)
(* ================================================================== *)

Lemma null_nil (s : str) : null s = true <-> s = [].
Proof. destruct s; simpl; split; congruence. Qed.

Lemma null_cons (s : str) : null s = false <-> s <> [].
Proof. destruct s; simpl; split; congruence. Qed.

(** X7. At most two posts. What [hf_chat_completion] answers depends on
    the remote end through the first post only, and through the second
    only when the first answered 429 or 503: two remote ends that agree
    there give the same outcome, whatever they would answer to further
    posts or to other models and prompts. Without a token the remote end
    is not consulted at all. *)
Theorem gateway_posts_at_most_twice (cfg : config)
  (post post' : str -> str -> nat -> option response) (model prompt : str) :
  HF_API_TOKEN cfg = [] \/
  (post model prompt 0 = post' model prompt 0 /\
   (forall r, post model prompt 0 = Some r -> asks_retry r = true ->
              post model prompt 1 = post' model prompt 1)) ->
  hf_chat_completion cfg post model prompt
  = hf_chat_completion cfg post' model prompt.
Proof.
  unfold hf_chat_completion, asks_retry.
  intros [Hno | [H0 H1]]; [now rewrite Hno|].
  destruct (null (HF_API_TOKEN cfg)); [reflexivity|].
  rewrite <- H0. destruct (post model prompt 0) as [r|]; [|reflexivity].
  destruct ((r_status_code r =? 429)%Z || (r_status_code r =? 503)%Z) eqn:E;
    [|reflexivity].
  now rewrite <- (H1 r eq_refl E).
Qed.

Lemma gateway_posts_at_most_twice_witness :
  let busy := Some (mkResponse 503 (u "busy") None) in
  let fine :=
    Some (mkResponse 200 []
            (Some (JObj [(u "choices",
                          JArr [JObj [(u "message",
                                       JObj [(u "content",
                                              JStr (u "ok"))])]])]))) in
  let cfg := mkConfig (u "t") (u "q") (u "d") in
  hf_chat_completion cfg
    (fun _ _ n => match n with 0 => busy | 1 => fine | _ => None end)
    (u "q") (u "hi")
  = hf_chat_completion cfg
      (fun _ _ n => match n with 0 => busy | _ => fine end)
      (u "q") (u "hi").
Proof.
  intros busy fine cfg.
  apply gateway_posts_at_most_twice. right. split; reflexivity.
Defined.

(** X8. The outcomes of the gateway. [hf_chat_completion] returns a
    content exactly when a token is configured, the response it goes on
    with (the first, or the second after a 429 or 503) has status 200, its
    body parses, and [choices[0].message.content] exists there. Every
    [HTTPException] it raises has status 500; a response with another
    status than 200 is reported with its text in the detail, also when it
    is a second 429 or 503. Any other exception comes from the transport
    or from a body that is no JSON: these are not turned into an
    [HTTPException]. *)
Theorem gateway_outcomes (cfg : config)
  (post : str -> str -> nat -> option response) (model prompt : str) :
  let answer := hf_chat_completion cfg post model prompt in
  (forall content,
     answer = Return content <->
     HF_API_TOKEN cfg <> [] /\
     exists r data,
       final_response post model prompt = Some r /\
       r_status_code r = 200%Z /\
       r_json r = Some data /\
       choice_content data = Some content) /\
  (forall status_code detail,
     answer = HTTPException status_code detail -> status_code = 500%Z) /\
  (forall r,
     HF_API_TOKEN cfg <> [] ->
     final_response post model prompt = Some r ->
     r_status_code r <> 200%Z ->
     answer = HTTPException 500
                (u "Hugging Face Router API error: " ++ r_text r)) /\
  (answer = Raised <->
   HF_API_TOKEN cfg <> [] /\
   (final_response post model prompt = None \/
    exists r, final_response post model prompt = Some r /\
              r_status_code r = 200%Z /\ r_json r = None)).
Proof.
  intros answer. subst answer.
  assert (Hshape :
    hf_chat_completion cfg post model prompt =
    if null (HF_API_TOKEN cfg)
    then HTTPException 500 (u "HF_API_TOKEN not configured.")
    else match final_response post model prompt with
         | None => Raised
         | Some r =>
             if negb (r_status_code r =? 200)%Z
             then HTTPException 500
                    (u "Hugging Face Router API error: " ++ r_text r)
             else match r_json r with
                  | None => Raised
                  | Some data =>
                      match choice_content data with
                      | Some content => Return content
                      | None =>
                          HTTPException 500
                            (u "Unexpected response format from HF Router API")
                      end
                  end
         end).
  { unfold hf_chat_completion, final_response.
    destruct (null (HF_API_TOKEN cfg)); [reflexivity|].
    destruct (post model prompt 0); reflexivity. }
  rewrite Hshape. clear Hshape.
  destruct (null (HF_API_TOKEN cfg)) eqn:Htok.
  - apply null_nil in Htok.
    split; [|split; [|split]].
    + intros content. split; [discriminate|]. intros [H _]. contradiction.
    + intros s d [= <- _]. reflexivity.
    + intros r H. contradiction.
    + split; [discriminate|]. intros [H _]. contradiction.
  - apply null_cons in Htok.
    destruct (final_response post model prompt) as [r|].
    2:{ split; [|split; [|split]].
        - intros content. split; [discriminate|].
          intros (_ & r & data & H & _). discriminate.
        - discriminate.
        - discriminate.
        - split; auto. }
    destruct (r_status_code r =? 200)%Z eqn:Hst; cbn [negb].
    2:{ apply Z.eqb_neq in Hst. split; [|split; [|split]].
        - intros content. split; [discriminate|].
          intros (_ & r' & data & [= <-] & H & _). contradiction.
        - intros s d [= <- _]. reflexivity.
        - intros r' _ [= <-] _. reflexivity.
        - split; [discriminate|].
          intros (_ & [H | (r' & [= <-] & H & _)]);
            [discriminate | contradiction]. }
    apply Z.eqb_eq in Hst.
    destruct (r_json r) as [data|] eqn:Hjson.
    2:{ split; [|split; [|split]].
        - intros content. split; [discriminate|].
          intros (_ & r' & data & [= <-] & _ & H & _). congruence.
        - discriminate.
        - intros r' _ [= <-] H. contradiction.
        - split; [|reflexivity]. intros _. split; [exact Htok|].
          right. exists r. auto. }
    destruct (choice_content data) as [content|] eqn:Hc.
    + split; [|split; [|split]].
      * intros content'. split.
        -- intros [= <-]. split; [exact Htok|]. exists r, data. auto.
        -- intros (_ & r' & data' & [= <-] & _ & H & H').
           rewrite Hjson in H. injection H as <-. congruence.
      * discriminate.
      * intros r' _ [= <-] H. contradiction.
      * split; [discriminate|].
        intros (_ & [H | (r' & [= <-] & _ & H)]); congruence.
    + split; [|split; [|split]].
      * intros content'. split; [discriminate|].
        intros (_ & r' & data' & [= <-] & _ & H & H').
        rewrite Hjson in H. injection H as <-. congruence.
      * intros s d [= <- _]. reflexivity.
      * intros r' _ [= <-] H. contradiction.
      * split; [discriminate|].
        intros (_ & [H | (r' & [= <-] & _ & H)]); congruence.
Qed.

Lemma gateway_outcomes_witness :
  let cfg := mkConfig (u "t") (u "q") (u "d") in
  let answer :=
    JObj [(u "choices",
           JArr [JObj [(u "message",
                        JObj [(u "content", JStr (u "ok"))])]])] in
  let post := fun (_ _ : str) (n : nat) =>
    match n with
    | 0 => Some (mkResponse 429 (u "slow down") None)
    | _ => Some (mkResponse 200 [] (Some answer))
    end in
  hf_chat_completion cfg post (u "q") (u "hi") = Return (JStr (u "ok")) /\
  hf_chat_completion cfg (fun _ _ _ => Some (mkResponse 429 (u "slow down") None))
    (u "q") (u "hi")
  = HTTPException 500 (u "Hugging Face Router API error: slow down").
Proof.
  intros cfg answer post. split.
  - pose proof (gateway_outcomes cfg post (u "q") (u "hi")) as H.
    cbv zeta in H. destruct H as (H & _). apply H.
    split; [discriminate|].
    exists (mkResponse 200 [] (Some answer)), answer.
    repeat split.
  - pose proof (gateway_outcomes cfg
                  (fun _ _ _ => Some (mkResponse 429 (u "slow down") None))
                  (u "q") (u "hi")) as H.
    cbv zeta in H. destruct H as (_ & _ & H & _).
    apply (H (mkResponse 429 (u "slow down") None));
      [discriminate | reflexivity | discriminate].
Defined.

(* ================================================================== *)
(** * Further properties of the cache keys and the routes *)
(* ================================================================== *)

Lemma u_inj (s1 s2 : string) : u s1 = u s2 -> s1 = s2.
Proof.
  unfold u. intros H.
  rewrite <- (string_of_list_ascii_of_string s1).
  rewrite <- (string_of_list_ascii_of_string s2). f_equal.
  revert H. generalize (list_ascii_of_string s1) (list_ascii_of_string s2).
  induction l as [|a l IH]; intros [|b l']; simpl; try discriminate.
  - reflexivity.
  - intros [= Hab Hl]. f_equal; [|now apply IH].
    rewrite <- (ascii_N_embedding a), <- (ascii_N_embedding b).
    now rewrite Hab.
Qed.

Lemma str_of_int_inj (a b : Z) : str_of_int a = str_of_int b -> a = b.
Proof.
  unfold str_of_int. intros H. apply u_inj in H.
  apply DecimalZ.to_int_inj.
  assert (Hnil : forall z, Z.to_int z <> Decimal.Pos Decimal.Nil /\
                           Z.to_int z <> Decimal.Neg Decimal.Nil).
  { intros [|p|p]; simpl; split; try discriminate;
      intros [= E]; now apply DecimalPos.Unsigned.to_uint_nonnil in E. }
  destruct (Hnil a) as [Ha1 Ha2], (Hnil b) as [Hb1 Hb2].
  pose proof (NilZero.isi _ Ha1 Ha2) as Ea.
  pose proof (NilZero.isi _ Hb1 Hb2) as Eb.
  rewrite H in Ea. rewrite Ea in Eb. now injection Eb.
Qed.

Lemma string_of_uint_digits (d : Decimal.uint) :
  Forall (fun c => (48 <= c <= 57)%N) (u (NilEmpty.string_of_uint d)).
Proof.
  induction d; simpl; constructor; try assumption; vm_compute;
    split; discriminate.
Qed.

Lemma str_of_int_chars (z : Z) :
  Forall (fun c => c = 45%N \/ (48 <= c <= 57)%N) (str_of_int z).
Proof.
  assert (Hu : forall d,
    Forall (fun c => c = 45%N \/ (48 <= c <= 57)%N)
      (u (NilZero.string_of_uint d))).
  { intros d.
    assert (H : Forall (fun c => (48 <= c <= 57)%N)
                  (u (NilZero.string_of_uint d))).
    { destruct d; try apply string_of_uint_digits.
      repeat constructor; vm_compute; discriminate. }
    eapply Forall_impl; [|exact H]. simpl. auto. }
  unfold str_of_int. destruct (Z.to_int z) as [d|d]; simpl.
  - apply Hu.
  - constructor; [now left|]. apply (Hu d).
Qed.

Lemma split_at_last (c : N) (m1 m2 s1 s2 : str) :
  ~ In c s1 -> ~ In c s2 ->
  m1 ++ c :: s1 = m2 ++ c :: s2 -> m1 = m2 /\ s1 = s2.
Proof.
  intros H1 H2. revert m2.
  induction m1 as [|x m1 IH]; intros [|y m2]; simpl; intros E.
  - injection E as E. auto.
  - injection E as E1 E2. subst. exfalso. apply H1.
    apply in_or_app. right. now left.
  - injection E as E1 E2. subst. exfalso. apply H2.
    apply in_or_app. right. now left.
  - injection E as E1 E2. subst. destruct (IH m2 E2). subst. auto.
Qed.

Lemma key_inj (prefix m1 m2 : str) (h1 h2 : Z) :
  prefix ++ m1 ++ u ":" ++ str_of_int h1
  = prefix ++ m2 ++ u ":" ++ str_of_int h2 <->
  m1 = m2 /\ h1 = h2.
Proof.
  split; [|now intros [-> ->]].
  intros H. apply app_inv_head in H.
  change (u ":") with [58%N] in H. simpl app in H.
  assert (Hno : forall z, ~ In 58%N (str_of_int z)).
  { intros z Hin. pose proof (str_of_int_chars z) as Hc.
    rewrite Forall_forall in Hc. destruct (Hc _ Hin) as [E | E].
    - discriminate.
    - lia. }
  apply split_at_last in H; auto.
  destruct H as [-> H]. now apply str_of_int_inj in H.
Qed.

(** X9. What a cache key tells apart. Two [explain] requests get the same
    key exactly when they name the same model and their codes have the
    same [hash]; likewise two [infer] requests and their prompts. So a
    different model or a different hash always gives a different entry,
    whatever characters the model name holds, and two texts share an entry
    as soon as their hashes agree. *)
Theorem cache_keys_injective (hash : str -> Z) :
  (forall r1 r2 : ExplainRequest.t,
     explain_key hash r1 = explain_key hash r2 <->
     ExplainRequest.model r1 = ExplainRequest.model r2 /\
     hash (ExplainRequest.code r1) = hash (ExplainRequest.code r2)) /\
  (forall r1 r2 : InferRequest.t,
     infer_key hash r1 = infer_key hash r2 <->
     InferRequest.model r1 = InferRequest.model r2 /\
     hash (InferRequest.prompt r1) = hash (InferRequest.prompt r2)).
Proof.
  split; intros r1 r2; apply key_inj.
Qed.

Section DictIn.
Variable V : Type.
Implicit Types (d : dict V) (k : str) (v : V).

Lemma in_dict_pop k d e : In e (dict_pop k d) -> In e d.
Proof.
  induction d as [|[k' v'] d IH]; simpl; [tauto|].
  case_key k k'; simpl; intuition.
Qed.

Lemma in_dict_set k v d e : In e (dict_set k v d) -> e = (k, v) \/ In e d.
Proof.
  induction d as [|[k' v'] d IH]; simpl.
  - intuition.
  - case_key k k'; simpl; intuition.
Qed.
End DictIn.

Lemma set_writes (V : Type) (c c' : TTLCache V) (now : Q) (key : str)
  (value : V) :
  set now key value c = Some c' ->
  dict_get key (store c') = Some (now, value).
Proof.
  unfold set. destruct (max_items c <=? _)%Z;
    [destruct (py_min _ _); [|discriminate]|];
    intros [= <-]; simpl; apply dict_get_set_same.
Qed.

Section RoutesMore.
Variable cfg : config.
Variable hash : str -> Z.

Lemma get_hit (V : Type) (c : TTLCache V) (now : Q) (key : str)
  (cached : V) (c1 : TTLCache V) :
  get now key c = (Some cached, c1) ->
  c1 = c /\
  exists ts, dict_get key (store c) = Some (ts, cached) /\
             (now - ts <= inject_Z (ttl c))%Q.
Proof.
  unfold get. destruct (dict_get key (store c)) as [[ts v]|]; [|discriminate].
  destruct (Qlt_bool _ _) eqn:E; [discriminate|].
  intros [= <- <-]. split; [reflexivity|]. exists ts.
  split; [reflexivity|]. now apply Qlt_bool_false.
Qed.

Lemma cached_completion_hit post key field model_key prompt
  (t_get t_set : Q) (c : TTLCache (dict json)) ts result :
  dict_get key (store c) = Some (ts, result) ->
  result <> [] ->
  (t_get - ts <= inject_Z (ttl c))%Q ->
  cached_completion cfg post key field model_key prompt t_get t_set c
  = (Return result, c).
Proof.
  intros Hin Hne Hfresh. unfold cached_completion, get. rewrite Hin.
  apply Qlt_bool_false in Hfresh. rewrite Hfresh.
  destruct result; [contradiction|reflexivity].
Qed.

Lemma cached_completion_return post key field model_key prompt
  (t_get t_set : Q) (c c' : TTLCache (dict json)) result :
  cached_completion cfg post key field model_key prompt t_get t_set c
  = (Return result, c') ->
  result <> [] /\ ttl c' = ttl c /\
  exists ts,
    dict_get key (store c') = Some (ts, result) /\
    (truthy (fst (get t_get key c)) = true ->
     c' = c /\ (t_get - ts <= inject_Z (ttl c))%Q) /\
    (truthy (fst (get t_get key c)) = false ->
     ts = t_set /\
     exists text,
       hf_chat_completion cfg post (select_model_id cfg model_key) prompt
       = Return text /\
       result = [(field, text)]).
Proof.
  unfold cached_completion.
  destruct (get t_get key c) as [cached c1] eqn:Hget. cbn [fst].
  destruct (truthy cached) eqn:Htr.
  - destruct cached as [[|x l]|]; try discriminate.
    intros [= <- <-].
    destruct (get_hit _ _ _ Hget) as (-> & ts & Hin & Hfresh).
    split; [discriminate|]. split; [reflexivity|].
    exists ts. split; [exact Hin|]. split; [auto|discriminate].
  - assert (Httl : ttl c1 = ttl c).
    { replace c1 with (snd (get t_get key c)) by now rewrite Hget.
      unfold get. destruct (dict_get key (store c)) as [[ts v]|];
        [|reflexivity].
      destruct (Qlt_bool _ _); reflexivity. }
    destruct (hf_chat_completion _ _ _ _) as [text| |] eqn:Hhf;
      try discriminate.
    destruct (set t_set key [(field, text)] c1) as [c2|] eqn:Hset;
      [|discriminate].
    intros [= <- <-]. split; [discriminate|].
    destruct (set_keeps_config _ _ _ _ Hset) as [Ht _].
    split; [exact (eq_trans Ht Httl)|].
    exists t_set. split.
    + exact (set_writes _ _ _ _ Hset).
    + split; [discriminate|]. intros _. split; [reflexivity|].
      exists text. auto.
Qed.
End RoutesMore.

(** X10. An answer is served again from the cache. When [explain] returns
    a result, the cache it leaves holds that result under the key of the
    request, with the clock reading of its [cache.set] when the gateway
    was called. Every later [explain] request with the same key (the same
    model and a code with the same hash) made no more than [ttl] seconds
    after that timestamp gets the same result and leaves the cache as it
    is, whatever the configuration and the remote end are by then; so a
    gateway that has failed in the meantime is not noticed. The same
    holds for [infer]. *)
Theorem answers_served_from_cache (cfg : config) (hash : str -> Z)
  (c c' : TTLCache (dict json)) (result : dict json) (t_get t_set : Q)
  (post : str -> str -> nat -> option response) :
  (forall req : ExplainRequest.t,
     explain cfg hash post req t_get t_set c = (Return result, c') ->
     exists ts,
       dict_get (explain_key hash req) (store c') = Some (ts, result) /\
       (truthy (fst (get t_get (explain_key hash req) c)) = false ->
        ts = t_set) /\
       forall cfg' post' req' t_get' t_set',
         explain_key hash req' = explain_key hash req ->
         (t_get' - ts <= inject_Z (ttl c))%Q ->
         explain cfg' hash post' req' t_get' t_set' c'
         = (Return result, c')) /\
  (forall req : InferRequest.t,
     infer cfg hash post req t_get t_set c = (Return result, c') ->
     exists ts,
       dict_get (infer_key hash req) (store c') = Some (ts, result) /\
       (truthy (fst (get t_get (infer_key hash req) c)) = false ->
        ts = t_set) /\
       forall cfg' post' req' t_get' t_set',
         infer_key hash req' = infer_key hash req ->
         (t_get' - ts <= inject_Z (ttl c))%Q ->
         infer cfg' hash post' req' t_get' t_set' c'
         = (Return result, c')).
Proof.
  split; intros req Hret; unfold explain, infer in *;
    apply cached_completion_return in Hret;
    destruct Hret as (Hne & Httl & ts & Hin & _ & Hmiss);
    exists ts; (split; [exact Hin|]);
    (split; [intros H; now destruct (Hmiss H)|]);
    intros cfg' post' req' t_get' t_set' Hkey Hfresh; rewrite Hkey;
    apply cached_completion_hit with (ts := ts); auto;
    now rewrite Httl.
Qed.

Lemma answers_served_from_cache_witness :
  let cfg := mkConfig (u "t") (u "q") (u "d") in
  let answer :=
    JObj [(u "choices",
           JArr [JObj [(u "message",
                        JObj [(u "content", JStr (u "ok"))])]])] in
  let up := fun (_ _ : str) (_ : nat) =>
              Some (mkResponse 200 [] (Some answer)) in
  let down := fun (_ _ : str) (_ : nat) => @None response in
  let hash := fun _ : str => 7%Z in
  let req := ExplainRequest.mk (u "x = 1") (u "qwen3") in
  let result := [(u "explanation", JStr (u "ok"))] in
  exists c',
    explain cfg hash up req 0%Q 1%Q cache = (Return result, c') /\
    explain default_config hash down req 46%Q 47%Q c' = (Return result, c').
Proof.
  intros cfg answer up down hash req result.
  eexists. split; [vm_compute; reflexivity|].
  match goal with
  | |- explain _ _ _ _ _ _ ?c' = _ =>
      destruct (proj1 (@answers_served_from_cache cfg hash cache c' result
                         0%Q 1%Q up) req)
        as (ts & Hin & Hts & Hserve); [vm_compute; reflexivity|]
  end.
  apply Hserve; [reflexivity|].
  rewrite Hts by reflexivity. vm_compute. discriminate.
Defined.

Section CacheEntries.
Variable V : Type.
Implicit Types (c : TTLCache V) (key : str).

Lemma set_entries c c' (now : Q) key (value : V) :
  set now key value c = Some c' ->
  forall e, In e (store c') -> e = (key, (now, value)) \/ In e (store c).
Proof.
  unfold set. destruct (max_items c <=? _)%Z;
    [destruct (py_min _ _); [|discriminate]|];
    intros [= <-] e He; simpl in He;
    apply in_dict_set in He; destruct He as [He | He]; auto.
  right. eapply in_dict_pop; eauto.
Qed.

Lemma set_size c c' (now : Q) key (value : V) (bound : Z) :
  set now key value c = Some c' ->
  (max_items c <= bound)%Z ->
  (Z.of_nat (List.length (store c)) <= bound)%Z ->
  (Z.of_nat (List.length (store c')) <= bound)%Z.
Proof.
  intros Hset Hm Hl.
  pose proof (@run_call_size V c (CallSet now key value) bound Hm Hl) as Hs.
  simpl in Hs. now rewrite Hset in Hs.
Qed.

Lemma get_entries c (now : Q) key :
  forall e, In e (store (snd (get now key c))) -> In e (store c).
Proof.
  intros e. destruct (get_leaves c now key) as ([-> | ->] & _); [auto|].
  simpl. apply in_dict_pop.
Qed.

Lemma get_config c (now : Q) key :
  ttl (snd (get now key c)) = ttl c /\
  max_items (snd (get now key c)) = max_items c.
Proof.
  destruct (get_leaves c now key) as ([-> | ->] & _); auto.
Qed.
End CacheEntries.

Section RoutesInvariant.
Variable cfg : config.
Variable hash : str -> Z.

(** The state of the module's cache between two of its operations. *)
Local Abbreviation route_cache := (fun c : TTLCache (dict json) =>
  max_items c = 200%Z /\
  (Z.of_nat (List.length (store c)) <= 200)%Z /\
  forall k ts v, In (k, (ts, v)) (store c) -> entry_of_route hash k v).

Lemma explain_infer_keys_differ (e : ExplainRequest.t) (i : InferRequest.t) :
  explain_key hash e <> infer_key hash i.
Proof.
  unfold explain_key, infer_key.
  change (u "explain:") with (101%N :: skipn 1 (u "explain:")).
  change (u "infer:") with (105%N :: skipn 1 (u "infer:")).
  rewrite <- !app_comm_cons. discriminate.
Qed.

Lemma get_route_cache (c : TTLCache (dict json)) (now : Q) (key : str) :
  route_cache c -> route_cache (run_call c (CallGet now key)).
Proof.
  intros (Hmx & Hlen & Hent). simpl.
  destruct (get_config c now key) as [_ Hm].
  split; [congruence|]. split.
  - apply (@run_call_size _ c (CallGet now key) 200%Z); lia.
  - intros k ts v Hin. apply get_entries in Hin. eauto.
Qed.

Lemma set_route_cache (c : TTLCache (dict json)) (now : Q) (key : str)
  (value : dict json) :
  entry_of_route hash key value ->
  route_cache c -> route_cache (run_call c (CallSet now key value)).
Proof.
  intros Hkey (Hmx & Hlen & Hent).
  split; [|split].
  - destruct (run_call_config c (CallSet now key value)) as [_ Hm].
    exact (eq_trans Hm Hmx).
  - apply run_call_size; [lia|exact Hlen].
  - simpl. destruct (set now key value c) as [c2|] eqn:Hset; [|exact Hent].
    intros k ts v Hin.
    destruct (set_entries _ _ _ _ Hset _ Hin) as [[= -> _ ->] | Hin'];
      eauto.
Qed.

Lemma run_step_cache (c : TTLCache (dict json)) (step : cache_step) :
  route_cache c -> route_cache (run_step hash c step).
Proof.
  intros Hc. destruct step; unfold run_step.
  - now apply get_route_cache.
  - apply set_route_cache; [left; eauto|exact Hc].
  - apply set_route_cache; [right; eauto|exact Hc].
Qed.

Lemma run_steps_cache (steps : list cache_step) :
  route_cache (run_steps hash cache steps).
Proof.
  unfold run_steps.
  assert (H0 : route_cache cache).
  { split; [reflexivity|]. split; [simpl; lia|]. intros k ts v []. }
  revert H0. generalize cache.
  induction steps as [|step steps IH]; intros c Hc; [exact Hc|].
  simpl. apply IH. now apply run_step_cache.
Qed.

Lemma run_steps_app (c : TTLCache (dict json)) (s1 s2 : list cache_step) :
  run_steps hash c (s1 ++ s2) = run_steps hash (run_steps hash c s1) s2.
Proof. apply fold_left_app. Qed.

Lemma snd_stored (o : option (TTLCache (dict json)))
  (c1 : TTLCache (dict json)) (result : dict json) :
  snd (match o with
       | Some c' => (Return result, c')
       | None => (Raised, c1)
       end)
  = match o with Some c' => c' | None => c1 end.
Proof. now destruct o. Qed.

(** A request served without interruption is a look-up, followed by a
    store when the gateway returned a content. *)
Lemma cached_completion_steps post key field model_key prompt
  (t_get t_set : Q) (c : TTLCache (dict json)) :
  (forall text, exists step,
      forall c1, run_step hash c1 step
                 = run_call c1 (CallSet t_set key [(field, text)])) ->
  exists steps,
    snd (cached_completion cfg post key field model_key prompt
           t_get t_set c)
    = run_steps hash c steps.
Proof.
  intros Hstore. unfold cached_completion.
  assert (H1 : snd (get t_get key c) = run_steps hash c [LookUp t_get key])
    by reflexivity.
  destruct (get t_get key c) as [cached c1]. cbn [snd] in H1.
  destruct (truthy cached).
  { exists [LookUp t_get key]. now destruct cached. }
  destruct (hf_chat_completion _ _ _ _) as [text| |];
    try (exists [LookUp t_get key]; exact H1).
  destruct (Hstore text) as [step Hstep].
  exists ([LookUp t_get key] ++ [step]).
  rewrite run_steps_app, <- H1. unfold run_steps. cbn [fold_left].
  rewrite Hstep. cbn [run_call].
  exact (snd_stored (set t_set key [(field, text)] c1) c1 [(field, text)]).
Qed.

Lemma serve_steps (c : TTLCache (dict json)) (call : api_call) :
  exists steps, snd (serve cfg hash c call) = run_steps hash c steps.
Proof.
  destruct call as [post req t_get t_set | post req t_get t_set]; simpl.
  - apply cached_completion_steps. intros text.
    exists (StoreExplain t_set req text). reflexivity.
  - apply cached_completion_steps. intros text.
    exists (StoreInfer t_set req text). reflexivity.
Qed.

Lemma serve_all_steps (calls : list api_call) :
  forall c, exists steps,
    serve_all cfg hash c calls = run_steps hash c steps.
Proof.
  induction calls as [|call calls IH]; intros c.
  - exists []. reflexivity.
  - destruct (serve_steps c call) as [s1 H1].
    destruct (IH (snd (serve cfg hash c call))) as [s2 H2].
    exists (s1 ++ s2). rewrite run_steps_app, <- H1. exact H2.
Qed.

Lemma cached_completion_raised post key field model_key prompt
  (t_get t_set : Q) (c : TTLCache (dict json)) :
  (1 <= max_items c)%Z ->
  fst (cached_completion cfg post key field model_key prompt t_get t_set c)
  = Raised ->
  hf_chat_completion cfg post (select_model_id cfg model_key) prompt
  = Raised.
Proof.
  intros Hmx. unfold cached_completion.
  destruct (get_config c t_get key) as [_ Hm].
  destruct (get t_get key c) as [cached c1]. cbn [snd] in Hm.
  destruct (truthy cached) eqn:Htr.
  { destruct cached as [[|x l]|]; discriminate. }
  destruct (hf_chat_completion _ _ _ _) as [text| |]; try discriminate;
    [|reflexivity].
  destruct (@set_succeeds _ c1 t_set key [(field, text)]) as (d & Hset & _).
  { rewrite Hm. exact Hmx. }
  destruct (set t_set key [(field, text)] c1) eqn:Hset'; [discriminate|].
  pose proof (eq_trans (eq_sym Hset) Hset'). discriminate.
Qed.

Lemma cached_completion_shape post key field model_key prompt
  (t_get t_set : Q) (c : TTLCache (dict json)) result :
  (forall ts, In (key, (ts, result)) (store c) ->
              exists text, result = [(field, text)]) ->
  fst (cached_completion cfg post key field model_key prompt t_get t_set c)
  = Return result ->
  exists text, result = [(field, text)].
Proof.
  intros Hent Hret.
  destruct (cached_completion cfg post key field model_key prompt
              t_get t_set c) as [o c'] eqn:Hcc.
  cbn [fst] in Hret. subst o.
  apply cached_completion_return in Hcc.
  destruct Hcc as (_ & _ & ts & Hin & Hhit & Hmiss).
  destruct (truthy (fst (get t_get key c))) eqn:Htr.
  - destruct (Hhit eq_refl) as [-> _].
    apply dict_get_some_in in Hin. eauto.
  - destruct (Hmiss eq_refl) as (_ & text & _ & ->). eauto.
Qed.
End RoutesInvariant.

(** X11. The module's cache under any interleaving of requests. Starting
    from [cache = TTLCache()], let the cache go through any sequence of
    look-ups and stores of [explain] and [infer] requests, at any clock
    readings and with any contents; requests served one after the other
    give such a sequence. Then the store holds at most 200 entries, each
    a one-field result named after the operation of its key, and
    [cache.set] does not fail. So every result [explain] returns from
    there, fetched or cached, has the one field [explanation], and every
    result of [infer] the one field [text]; and a request ends with an
    exception that is no [HTTPException] only when the gateway raised
    it. *)
Theorem routes_keep_cache_shape (cfg : config) (hash : str -> Z)
  (steps : list cache_step) :
  let c := run_steps hash cache steps in
  (List.length (store c) <= 200)%nat /\
  (forall k ts v, In (k, (ts, v)) (store c) -> entry_of_route hash k v) /\
  (forall now key value, set now key value c <> None) /\
  (forall post req t_get t_set result,
     fst (explain cfg hash post req t_get t_set c) = Return result ->
     exists text, result = [(u "explanation", text)]) /\
  (forall post req t_get t_set result,
     fst (infer cfg hash post req t_get t_set c) = Return result ->
     exists text, result = [(u "text", text)]) /\
  (forall post req t_get t_set,
     fst (explain cfg hash post req t_get t_set c) = Raised ->
     hf_chat_completion cfg post
       (select_model_id cfg (ExplainRequest.model req))
       (explain_prompt (ExplainRequest.code req)) = Raised) /\
  (forall post req t_get t_set,
     fst (infer cfg hash post req t_get t_set c) = Raised ->
     hf_chat_completion cfg post
       (select_model_id cfg (InferRequest.model req))
       (InferRequest.prompt req) = Raised) /\
  (forall calls, exists steps',
     serve_all cfg hash c calls = run_steps hash cache steps').
Proof.
  intros c. destruct (run_steps_cache hash steps) as (Hmx & Hlen & Hent).
  fold c in Hmx, Hlen, Hent.
  split; [lia|]. split; [exact Hent|].
  split; [|split; [|split; [|split; [|split]]]].
  - intros now key value.
    destruct (@set_succeeds _ c now key value) as (d & Hset & _); [lia|].
    intros Hnone. pose proof (eq_trans (eq_sym Hset) Hnone). discriminate.
  - intros post req t_get t_set result. unfold explain.
    apply cached_completion_shape. intros ts Hin.
    destruct (Hent _ _ _ Hin) as [(r & text & _ & ->) | (r & text & Hk & _)];
      [eauto|].
    now apply explain_infer_keys_differ in Hk.
  - intros post req t_get t_set result. unfold infer.
    apply cached_completion_shape. intros ts Hin.
    destruct (Hent _ _ _ Hin) as [(r & text & Hk & _) | (r & text & _ & ->)];
      [|eauto].
    symmetry in Hk. now apply explain_infer_keys_differ in Hk.
  - intros post req t_get t_set. unfold explain.
    apply cached_completion_raised. lia.
  - intros post req t_get t_set. unfold infer.
    apply cached_completion_raised. lia.
  - intros calls. destruct (serve_all_steps cfg hash calls c) as [s2 H2].
    exists (steps ++ s2). rewrite run_steps_app. exact H2.
Qed.

Lemma routes_keep_cache_shape_witness :
  let cfg := mkConfig (u "t") (u "q") (u "d") in
  let down := fun (_ _ : str) (_ : nat) => @None response in
  let hash := fun _ : str => 7%Z in
  let req := ExplainRequest.mk (u "x = 1") (u "qwen3") in
  let ireq := InferRequest.mk (u "qwen3") (u "x = 1") in
  let c := run_steps hash cache
             [LookUp 0%Q (explain_key hash req);
              LookUp 1%Q (infer_key hash ireq);
              StoreInfer 2%Q ireq (JStr (u "no"));
              StoreExplain 3%Q req (JStr (u "ok"))] in
  exists result,
    fst (explain cfg hash down req 4%Q 5%Q c) = Return result /\
    exists text, result = [(u "explanation", text)].
Proof.
  intros cfg down hash req ireq c.
  exists [(u "explanation", JStr (u "ok"))].
  assert (H : fst (explain cfg hash down req 4%Q 5%Q c)
              = Return [(u "explanation", JStr (u "ok"))])
    by (vm_compute; reflexivity).
  split; [exact H|].
  pose proof (routes_keep_cache_shape cfg hash
                [LookUp 0%Q (explain_key hash req);
                 LookUp 1%Q (infer_key hash ireq);
                 StoreInfer 2%Q ireq (JStr (u "no"));
                 StoreExplain 3%Q req (JStr (u "ok"))]) as Hshape.
  cbv zeta in Hshape. destruct Hshape as (_ & _ & _ & He & _).
  exact (He down req 4%Q 5%Q _ H).
Defined.

(* ================================================================== *)
(** * Substrings *)
(* ================================================================== *)

Lemma startswith_spec (p s : str) :
  startswith p s = true <-> exists b, s = p ++ b.
Proof.
  revert s. induction p as [|a p IH]; intros s; simpl.
  - split; eauto.
  - destruct s as [|c s].
    + split; [discriminate|]. intros [b H]. discriminate.
    + rewrite andb_true_iff, N.eqb_eq, IH. split.
      * intros [-> [b ->]]. eauto.
      * intros [b [= -> ->]]. eauto.
Qed.

Lemma contains_spec (sub s : str) :
  contains sub s = true <-> occurs sub s.
Proof.
  unfold occurs. induction s as [|c s IH]; simpl.
  - rewrite orb_false_r, startswith_spec. split.
    + intros [b H]. exists [], b. exact H.
    + intros ([|x a] & b & H); [eauto|discriminate].
  - rewrite orb_true_iff, startswith_spec, IH. split.
    + intros [[b H] | (a & b & ->)].
      * exists [], b. exact H.
      * exists (c :: a), b. reflexivity.
    + intros ([|x a] & b & H).
      * left. eauto.
      * right. injection H as _ ->. eauto.
Qed.

Lemma contains_char (c : N) (s : str) :
  contains [c] s = true <-> In c s.
Proof.
  rewrite contains_spec. unfold occurs. split.
  - intros (a & b & ->). apply in_or_app. right. now left.
  - intros H. apply in_split in H. destruct H as (a & b & ->).
    exists a, b. reflexivity.
Qed.

(* ================================================================== *)
(** * Further properties of the normalizer *)
(* ================================================================== *)

Lemma islinebreak_isspace c : islinebreak c = true -> isspace c = true.
Proof.
  unfold islinebreak, isspace. bool_to_prop. lia.
Qed.

Lemma squeezed_app a b : squeezed (a ++ b) = squeezed a ++ squeezed b.
Proof. apply filter_app. Qed.

Lemma squeezed_rstrip s : squeezed (rstrip s) = squeezed s.
Proof.
  induction s as [|c s IH]; [reflexivity|]. cbn [rstrip].
  destruct (isspace c) eqn:Hc; cbn [andb].
  - destruct (rstrip s) eqn:Hr; cbn [null].
    + unfold squeezed in *. cbn [filter]. rewrite Hc. cbn [negb].
      now rewrite <- IH.
    + unfold squeezed in *. cbn [filter]. rewrite Hc. cbn [negb].
      rewrite <- IH. reflexivity.
  - unfold squeezed in *. cbn [filter]. rewrite Hc. cbn [negb].
    now rewrite IH.
Qed.

Lemma squeezed_join L :
  squeezed (join [LF] L) = List.concat (map squeezed L).
Proof.
  induction L as [|l L IH]; [reflexivity|].
  destruct L as [|l' L].
  - simpl. now rewrite app_nil_r.
  - change (join [LF] (l :: l' :: L)) with (l ++ [LF] ++ join [LF] (l' :: L)).
    rewrite !squeezed_app, IH. reflexivity.
Qed.

Lemma squeezed_splitlines s b :
  List.concat (map squeezed (splitlines_from b s)) = squeezed s.
Proof.
  revert b. induction s as [|c s IH]; intros b; [reflexivity|].
  cbn [splitlines_from].
  destruct (b && (c =? LF)%N) eqn:Hskip.
  - apply andb_prop in Hskip. destruct Hskip as [_ Hc].
    apply N.eqb_eq in Hc. subst c. rewrite IH. reflexivity.
  - destruct (islinebreak c) eqn:Hlb.
    + cbn [map List.concat]. rewrite IH.
      apply islinebreak_isspace in Hlb.
      unfold squeezed. cbn [filter]. now rewrite Hlb.
    + specialize (IH false).
      destruct (splitlines_from false s) as [|l ls]; cbn [map List.concat] in *.
      * rewrite app_nil_r. change (c :: s) with ([c] ++ s).
        now rewrite squeezed_app, <- IH, app_nil_r.
      * change (c :: l) with ([c] ++ l).
        change (c :: s) with ([c] ++ s).
        now rewrite !squeezed_app, <- IH, app_assoc.
Qed.

Lemma squeezed_replace_tab s : squeezed (replace TAB (u "    ") s) = squeezed s.
Proof.
  induction s as [|c s IH]; [reflexivity|].
  unfold replace in *. cbn [flat_map]. rewrite squeezed_app, IH.
  destruct (c =? TAB)%N eqn:E.
  - apply N.eqb_eq in E. subst c. reflexivity.
  - change (c :: s) with ([c] ++ s). now rewrite squeezed_app.
Qed.

Lemma squeezed_nil s :
  squeezed s = [] <-> Forall (fun c => isspace c = true) s.
Proof.
  unfold squeezed. induction s as [|c s IH]; simpl.
  - split; auto.
  - destruct (isspace c) eqn:Hc; simpl.
    + rewrite IH. split; [auto|]. now inversion 1.
    + split; [discriminate|]. inversion 1. congruence.
Qed.

Lemma squeezed_simple_auto_format code :
  squeezed (simple_auto_format code) = squeezed code.
Proof.
  unfold simple_auto_format, strip, splitlines.
  rewrite squeezed_app. change (squeezed [LF]) with (@nil N).
  rewrite app_nil_r. unfold squeezed at 1. rewrite filter_lstrip.
  fold (squeezed (rstrip (join [LF]
         (map rstrip (splitlines_from false (replace TAB (u "    ") code)))))).
  rewrite squeezed_rstrip, squeezed_join, map_map.
  rewrite (map_ext _ squeezed squeezed_rstrip).
  now rewrite squeezed_splitlines, squeezed_replace_tab.
Qed.

(** X12. The normalizer changes whitespace only. Without their
    whitespace characters, a text and its normal form are the same
    sequence of characters: nothing else is removed, added or reordered.
    The normal form is the single newline exactly when the text holds
    nothing but whitespace. *)
Theorem simple_auto_format_keeps_text (code : str) :
  squeezed (simple_auto_format code) = squeezed code /\
  (simple_auto_format code = [LF] <->
   Forall (fun c => isspace c = true) code).
Proof.
  split; [apply squeezed_simple_auto_format|].
  rewrite <- squeezed_nil, <- squeezed_simple_auto_format. split.
  - intros ->. reflexivity.
  - unfold simple_auto_format, strip.
    set (j := rstrip _). rewrite squeezed_app, app_nil_r.
    intros Hnil. apply squeezed_nil in Hnil.
    destruct (lstrip_split j) as (w & _ & _ & Hrun).
    destruct (lstrip j) as [|c r]; [reflexivity|].
    simpl in Hrun. inversion Hnil as [|? ? Hc _]; subst.
    rewrite Hc in Hrun. discriminate.
Qed.

(* ================================================================== *)
(** * Further properties of the duplicate detector *)
(* ================================================================== *)

Lemma first_named_app key (a b : list (str * str)) :
  first_named key (a ++ b) =
  match first_named key a with
  | Some n => Some n
  | None => first_named key b
  end.
Proof.
  unfold first_named. induction a as [|m a IH]; [reflexivity|].
  simpl. destruct (str_eqb (squeezed (snd m)) key); [reflexivity|exact IH].
Qed.

Section DuplicatesMore.
Variable uni_alnum : N -> bool.

(** The pairs one match adds, looked up in the whole list. *)
Local Abbreviation pair_for := (fun (ms : list (str * str)) (m : str * str) =>
  match first_named (squeezed (snd m)) ms with
  | Some first => if str_eqb first (fst m) then [] else [(first, fst m)]
  | None => []
  end).

Lemma fold_duplicate_step_pairs (q : list (str * str)) :
  forall (p : list (str * str)) (bodies_map : dict str)
         (dups : list (str * str)),
    (forall key, dict_get key bodies_map = first_named key p) ->
    snd (fold_left (duplicate_step uni_alnum) q (bodies_map, dups))
    = dups ++ flat_map (pair_for (p ++ q)) q.
Proof.
  induction q as [|[name body] q IH]; intros p bodies_map dups Hmap.
  - simpl. now rewrite app_nil_r.
  - cbn [fold_left flat_map].
    assert (Hkey : re_sub uni_alnum spaces_pattern [] body = squeezed body)
      by apply (body_key_filter uni_alnum (name, body)).
    assert (Hset : forall key,
      first_named (squeezed body) p = None \/
      first_named (squeezed body) p = Some name ->
      dict_get key (dict_set (squeezed body) name bodies_map)
      = first_named key (p ++ [(name, body)])).
    { intros key Hp. rewrite first_named_app.
      unfold first_named at 2. cbn [find snd fst].
      destruct (str_eqb (squeezed body) key) eqn:E.
      - apply str_eqb_eq in E. subst key.
        rewrite dict_get_set_same.
        destruct Hp as [-> | ->]; reflexivity.
      - rewrite dict_get_set_other, Hmap.
        + now destruct (first_named key p).
        + intros ->. now rewrite str_eqb_refl in E. }
    replace (p ++ (name, body) :: q) with ((p ++ [(name, body)]) ++ q)
      by now rewrite <- app_assoc.
    unfold duplicate_step at 2. rewrite Hkey, Hmap. cbv beta. cbn [snd fst].
    rewrite (first_named_app (squeezed body) (p ++ [(name, body)]) q).
    rewrite (first_named_app (squeezed body) p [(name, body)]).
    destruct (first_named (squeezed body) p) as [first|] eqn:Hfirst.
    + cbn [snd fst].
      destruct (str_eqb first name) eqn:E; cbn [negb].
      * apply str_eqb_eq in E. subst first.
        rewrite (IH (p ++ [(name, body)])); [reflexivity|].
        intros key. apply Hset. now right.
      * rewrite (IH (p ++ [(name, body)])).
        -- now rewrite <- app_assoc.
        -- intros key. rewrite first_named_app, Hmap.
           destruct (first_named key p) eqn:Hk; [reflexivity|].
           unfold first_named. cbn [find snd].
           destruct (str_eqb (squeezed body) key) eqn:E'; [|reflexivity].
           apply str_eqb_eq in E'. subst key. congruence.
    + unfold first_named at 1. cbn [find snd fst].
      rewrite !str_eqb_refl. cbn [option_map fst].
      rewrite str_eqb_refl.
      rewrite (IH (p ++ [(name, body)])); [reflexivity|].
      intros key. apply Hset. now left.
Qed.

Lemma find_duplicates_pairs (ms : list (str * str)) :
  find_duplicates_in uni_alnum ms = pairs_by_first ms.
Proof.
  exact (fold_duplicate_step_pairs ms [] [] [] (fun _ => eq_refl)).
Qed.
End DuplicatesMore.

(** X13. Duplicates are reported against the first occurrence. The result
    of [find_duplicate_functions] is, in the order of the matches, one
    pair for every match whose body (without whitespace) was seen before
    under another name, and the first name of the pair is always that of
    the first match with this body. So three functions [a], [b], [c] with
    the same body give [(a, b)] and [(a, c)], and never [(b, c)]; a match
    that repeats the name of the first one gives no pair. *)
Theorem duplicates_by_first_occurrence (uni_alnum : N -> bool) :
  (forall ms, find_duplicates_in uni_alnum ms = pairs_by_first ms) /\
  (forall code,
     find_duplicate_functions uni_alnum code
     = pairs_by_first (function_matches uni_alnum code)) /\
  (forall a b c body_a body_b body_c,
     squeezed body_a = squeezed body_b ->
     squeezed body_a = squeezed body_c ->
     a <> b -> a <> c ->
     find_duplicates_in uni_alnum [(a, body_a); (b, body_b); (c, body_c)]
     = [(a, b); (a, c)]) /\
  (forall a b body_a body_b body_a',
     squeezed body_a = squeezed body_b ->
     squeezed body_a = squeezed body_a' ->
     a <> b ->
     find_duplicates_in uni_alnum [(a, body_a); (b, body_b); (a, body_a')]
     = [(a, b)]).
Proof.
  split; [apply find_duplicates_pairs|].
  split; [intros code; apply find_duplicates_pairs|].
  split.
  - intros a b c body_a body_b body_c Hb Hc Hab Hac.
    rewrite find_duplicates_pairs.
    unfold pairs_by_first, first_named. cbn [flat_map find snd fst].
    rewrite <- Hb, <- Hc, !str_eqb_refl. cbn [option_map fst].
    rewrite str_eqb_refl, !str_eqb_neq by assumption. reflexivity.
  - intros a b body_a body_b body_a' Hb Ha' Hab.
    rewrite find_duplicates_pairs.
    unfold pairs_by_first, first_named. cbn [flat_map find snd fst].
    rewrite <- Hb, <- Ha', !str_eqb_refl. cbn [option_map fst].
    rewrite str_eqb_refl, !str_eqb_neq by assumption. reflexivity.
Qed.

Lemma duplicates_by_first_occurrence_witness :
  find_duplicates_in (fun _ => false)
    [(u "a", u "return 1"); (u "b", u " return 1"); (u "c", u "return  1")]
  = [(u "a", u "b"); (u "a", u "c")].
Proof.
  destruct (duplicates_by_first_occurrence (fun _ => false))
    as (_ & _ & H & _).
  apply H; vm_compute; intros; discriminate || reflexivity.
Defined.

Lemma flat_map_length_le (A B : Type) (f : A -> list B) (l : list A) :
  (forall x, List.length (f x) <= 1) ->
  List.length (flat_map f l) <= List.length l.
Proof.
  intros Hf. induction l as [|x l IH]; simpl; [lia|].
  rewrite length_app. specialize (Hf x). lia.
Qed.

Lemma pairs_by_first_length (ms : list (str * str)) :
  List.length (pairs_by_first ms) <= pred (List.length ms).
Proof.
  destruct ms as [|m ms]; [simpl; lia|].
  unfold pairs_by_first. cbn [flat_map].
  unfold first_named at 1. cbn [find]. rewrite str_eqb_refl.
  cbn [option_map]. rewrite str_eqb_refl. cbn [app List.length pred].
  apply flat_map_length_le. intros x.
  destruct (first_named _ _) as [first|]; [|simpl; lia].
  destruct (str_eqb first (fst x)); simpl; lia.
Qed.

Section NoMatch.
Variable uni_alnum : N -> bool.

Lemma findall_nil r s :
  forall prev,
    search_from uni_alnum r prev s = None ->
    findall_from uni_alnum r prev s 0 = [].
Proof.
  induction s as [|c s IH]; intros prev; simpl;
    destruct (match_here uni_alnum r false prev _); try discriminate.
  - reflexivity.
  - apply IH.
Qed.

Lemma function_pattern_starts prev w rest :
  matches uni_alnum (function_pattern uni_alnum) prev w rest ->
  exists w', w = u "def" ++ w'.
Proof.
  unfold function_pattern, seq. cbn [fold_right].
  intros H. cbn [matches] in H.
  destruct H as (w1 & w' & -> & Hdef & _).
  apply matches_lits in Hdef. subst w1. eauto.
Qed.

Lemma function_matches_none code :
  ~ occurs (u "def") code -> function_matches uni_alnum code = [].
Proof.
  intros Hno. unfold function_matches, re_findall.
  rewrite findall_nil; [reflexivity|].
  destruct (search_from uni_alnum (function_pattern uni_alnum) None code)
    eqn:E; [|reflexivity].
  exfalso. apply Hno.
  assert (H : search_from uni_alnum (function_pattern uni_alnum) None code
              <> None) by congruence.
  apply search_from_spec in H. destruct H as (pre & w & rest & -> & H).
  apply function_pattern_starts in H. destruct H as (w' & ->).
  exists pre, (w' ++ rest). now rewrite <- app_assoc.
Qed.
End NoMatch.

(** X14. No pair without two functions. The detector returns fewer pairs
    than the pattern finds matches: the first match never gives one. A
    text in which [def] does not occur has no match at all, so no pair is
    reported for it and the orchestrator answers with the general
    suggestion alone. *)
Theorem duplicates_need_two_matches (uni_alnum : N -> bool) (code : str) :
  List.length (find_duplicate_functions uni_alnum code)
  <= pred (List.length (function_matches uni_alnum code)) /\
  (~ occurs (u "def") code ->
   function_matches uni_alnum code = [] /\
   find_duplicate_functions uni_alnum code = [] /\
   refactors (analyze uni_alnum code) = [general_refactor]).
Proof.
  split.
  - unfold find_duplicate_functions. rewrite find_duplicates_pairs.
    apply pairs_by_first_length.
  - intros Hno.
    assert (H : function_matches uni_alnum code = [])
      by now apply function_matches_none.
    assert (H' : find_duplicate_functions uni_alnum code = [])
      by (unfold find_duplicate_functions; now rewrite H).
    split; [exact H|]. split; [exact H'|].
    unfold analyze. now rewrite H'.
Qed.

Lemma duplicates_need_two_matches_witness :
  find_duplicate_functions (fun _ => false) (py "x = 1\nprint(x)\n") = [].
Proof.
  destruct (duplicates_need_two_matches (fun _ => false)
              (py "x = 1\nprint(x)\n")) as (_ & H).
  destruct H as (_ & H & _); [|exact H].
  rewrite <- contains_spec. vm_compute. discriminate.
Defined.

(* ================================================================== *)
(** * Further properties of the lint engine *)
(* ================================================================== *)

Section LintFacts.
Variable uni_alnum : N -> bool.

Ltac finding_cases :=
  unfold lint_like_findings; cbv zeta;
  rewrite !in_append_if; simpl;
  split;
  [ intros H;
    repeat (destruct H as [H | [Hb He]];
            [| first [exact Hb | vm_compute in He; discriminate]]);
    contradiction
  | intros H;
    repeat first [right; split; [exact H | reflexivity] | left] ].

Lemma tabs_finding_fires code :
  In finding_tabs (lint_like_findings uni_alnum code) <->
  contains [TAB] code = true.
Proof. finding_cases. Qed.

Lemma print_finding_fires code :
  In finding_print (lint_like_findings uni_alnum code) <->
  re_search uni_alnum print_pattern code
  && negb (contains (u "logging") code) = true.
Proof. finding_cases. Qed.

Lemma except_finding_fires code :
  In finding_except (lint_like_findings uni_alnum code) <->
  re_search uni_alnum except_pattern code = true.
Proof. finding_cases. Qed.

Lemma none_finding_fires code :
  In finding_none (lint_like_findings uni_alnum code) <->
  re_search uni_alnum none_pattern code = true.
Proof. finding_cases. Qed.

Lemma long_finding_fires code :
  In finding_long (lint_like_findings uni_alnum code) <->
  existsb (fun ln => 120 <? List.length ln) (splitlines code) = true.
Proof. finding_cases. Qed.

Lemma trailing_finding_fires code :
  In finding_trailing (lint_like_findings uni_alnum code) <->
  re_search uni_alnum trailing_pattern code = true.
Proof. finding_cases. Qed.
End LintFacts.

Section LintShapes.
Variable uni_alnum : N -> bool.

Lemma print_pattern_matches prev w rest :
  matches uni_alnum print_pattern prev w rest <->
  exists args,
    w = u "print(" ++ args ++ [41%N] /\
    args <> [] /\ Forall (fun c => c <> LF) args.
Proof.
  unfold print_pattern, seq. cbn [fold_right matches]. split.
  - intros (w1 & x1 & -> & Hlit
            & args & x2 & -> & [Hn Hargs]
            & rp & x3 & -> & -> & ->).
    apply matches_lits in Hlit. subst w1.
    exists args. split; [reflexivity|].
    split; [now apply length_pos_nonempty|].
    eapply Forall_impl; [|exact Hargs]. intros c; apply dot_true.
  - intros (args & -> & Hn & Hargs).
    exists (u "print("), (args ++ [41%N]).
    split; [reflexivity|]. split; [now apply matches_lits|].
    exists args, [41%N].
    split; [reflexivity|]. split.
    { split; [now apply length_pos_nonempty|].
      eapply Forall_impl; [|exact Hargs]. intros c; apply dot_true. }
    exists [41%N], []. repeat split.
Qed.

Lemma except_pattern_matches prev w rest :
  matches uni_alnum except_pattern prev w rest <->
  exists ws1 ws2,
    w = u "except" ++ ws1 ++ [58%N] ++ ws2 ++ u "pass" /\
    Forall (fun c => isspace c = true) ws1 /\
    Forall (fun c => isspace c = true) ws2.
Proof.
  unfold except_pattern, seq. cbn [fold_right matches]. split.
  - intros (w1 & x1 & -> & Hlit
            & ws1 & x2 & -> & [_ Hws1]
            & col & x3 & -> & ->
            & ws2 & x4 & -> & [_ Hws2]
            & pass & x5 & -> & Hpass & ->).
    apply matches_lits in Hlit. apply matches_lits in Hpass. subst w1 pass.
    exists ws1, ws2. split; [now rewrite app_nil_r|]. auto.
  - intros (ws1 & ws2 & -> & Hws1 & Hws2).
    exists (u "except"), (ws1 ++ [58%N] ++ ws2 ++ u "pass").
    split; [reflexivity|]. split; [now apply matches_lits|].
    exists ws1, ([58%N] ++ ws2 ++ u "pass").
    split; [reflexivity|]. split; [split; [lia|exact Hws1]|].
    exists [58%N], (ws2 ++ u "pass").
    split; [reflexivity|]. split; [reflexivity|].
    exists ws2, (u "pass").
    split; [reflexivity|]. split; [split; [lia|exact Hws2]|].
    exists (u "pass"), [].
    split; [now rewrite app_nil_r|]. split; [now apply matches_lits|].
    reflexivity.
Qed.

Lemma around_spaces_matches (a b : str) prev w rest :
  matches uni_alnum (seq [lits a; Rep true 0 isspace; lits b]) prev w rest
  <->
  exists ws, w = a ++ ws ++ b /\ Forall (fun c => isspace c = true) ws.
Proof.
  unfold seq. cbn [fold_right matches]. split.
  - intros (w1 & x1 & -> & Ha
            & ws & x2 & -> & [_ Hws]
            & w3 & x3 & -> & Hb & ->).
    apply matches_lits in Ha. apply matches_lits in Hb. subst w1 w3.
    exists ws. split; [now rewrite app_nil_r|]. exact Hws.
  - intros (ws & -> & Hws).
    exists a, (ws ++ b).
    split; [reflexivity|]. split; [now apply matches_lits|].
    exists ws, b.
    split; [reflexivity|]. split; [split; [lia|exact Hws]|].
    exists b, [].
    split; [now rewrite app_nil_r|]. split; [now apply matches_lits|].
    reflexivity.
Qed.

Lemma trailing_pattern_matches prev w rest :
  matches uni_alnum trailing_pattern prev w rest <->
  w <> [] /\ Forall (fun c => isspace c = true) w /\
  (rest = [] \/ exists rest', rest = LF :: rest').
Proof.
  unfold trailing_pattern, seq. cbn [fold_right matches]. split.
  - intros (ws & x1 & -> & [Hn Hws] & e & x2 & -> & [-> Hend] & ->).
    rewrite !app_nil_r. split; [now apply length_pos_nonempty|]. auto.
  - intros (Hn & Hws & Hend).
    exists w, []. split; [now rewrite app_nil_r|].
    split; [split; [now apply length_pos_nonempty|exact Hws]|].
    exists [], []. repeat split. exact Hend.
Qed.

Lemma print_search_shape code :
  re_search uni_alnum print_pattern code = true <-> print_shape code.
Proof.
  rewrite re_search_spec. unfold print_shape. split.
  - intros (pre & w & rest & -> & H). apply print_pattern_matches in H.
    destruct H as (args & -> & H). exists pre, args, rest. auto.
  - intros (pre & args & rest & -> & H).
    exists pre, (u "print(" ++ args ++ [41%N]), rest.
    split; [reflexivity|]. apply print_pattern_matches. eauto.
Qed.

Lemma except_search_shape code :
  re_search uni_alnum except_pattern code = true <-> except_shape code.
Proof.
  rewrite re_search_spec. unfold except_shape. split.
  - intros (pre & w & rest & -> & H). apply except_pattern_matches in H.
    destruct H as (ws1 & ws2 & -> & H). exists pre, ws1, ws2, rest. auto.
  - intros (pre & ws1 & ws2 & rest & -> & H).
    exists pre, (u "except" ++ ws1 ++ [58%N] ++ ws2 ++ u "pass"), rest.
    split; [reflexivity|]. apply except_pattern_matches. eauto.
Qed.

Lemma none_search_shape code :
  re_search uni_alnum none_pattern code = true <-> none_shape code.
Proof.
  rewrite re_search_spec. unfold none_shape, none_pattern.
  cbn [matches]. split.
  - intros (pre & w & rest & -> & [H | H]);
      apply around_spaces_matches in H; destruct H as (ws & -> & H);
      exists pre, ws, rest; auto.
  - intros (pre & ws & rest & Hws & [-> | ->]).
    + exists pre, (u "==" ++ ws ++ u "None"), rest.
      split; [reflexivity|]. left. apply around_spaces_matches. eauto.
    + exists pre, (u "None" ++ ws ++ u "=="), rest.
      split; [reflexivity|]. right. apply around_spaces_matches. eauto.
Qed.

Lemma trailing_search_shape code :
  re_search uni_alnum trailing_pattern code = true <-> trailing_shape code.
Proof.
  rewrite re_search_spec. unfold trailing_shape. split.
  - intros (pre & w & rest & -> & H). apply trailing_pattern_matches in H.
    destruct H as (Hn & Hws & Hend).
    destruct (exists_last Hn) as (w' & c & ->).
    exists (pre ++ w'), c, rest.
    split; [now rewrite <- !app_assoc|].
    split; [|exact Hend].
    rewrite Forall_app in Hws. destruct Hws as [_ Hc]. now inversion Hc.
  - intros (pre & c & rest & -> & Hc & Hend).
    exists pre, [c], rest. split; [reflexivity|].
    apply trailing_pattern_matches.
    split; [discriminate|]. split; [now constructor|exact Hend].
Qed.
End LintShapes.

(** X15. The three one-line checks, by shape. The [print] finding is
    reported exactly when the text holds [print(], at least one character
    and a closing parenthesis on one line, and the word [logging] occurs
    nowhere in it (not even in a comment or a string); the bare-except
    finding exactly when it holds [except], a colon and [pass] separated
    by whitespace only, line ends included; the [None] comparison finding
    exactly when [==] and [None] stand next to each other, in either
    order, with only whitespace between them. *)
Theorem pattern_findings_by_shape (uni_alnum : N -> bool) (code : str) :
  (In finding_print (lint_like_findings uni_alnum code) <->
   print_shape code /\ ~ occurs (u "logging") code) /\
  (In finding_except (lint_like_findings uni_alnum code) <->
   except_shape code) /\
  (In finding_none (lint_like_findings uni_alnum code) <->
   none_shape code).
Proof.
  split; [|split].
  - rewrite print_finding_fires, andb_true_iff, negb_true_iff.
    rewrite print_search_shape, <- contains_spec.
    destruct (contains (u "logging") code); intuition congruence.
  - rewrite except_finding_fires. apply except_search_shape.
  - rewrite none_finding_fires. apply none_search_shape.
Qed.

(** X16. The whitespace checks, by shape. The tabs finding is reported
    exactly when the text holds a tab; the long-lines finding exactly
    when one of its lines, cut as [str.splitlines] cuts them, is longer
    than 120 characters; the trailing-whitespace finding exactly when a
    whitespace character stands at the end of the text or before a line
    feed. A line feed is such a character: every text that ends in a
    whitespace character, a final newline included, is reported, and so
    is every text with an empty line in it. *)
Theorem whitespace_findings_by_shape (uni_alnum : N -> bool) (code : str) :
  (In finding_tabs (lint_like_findings uni_alnum code) <-> In TAB code) /\
  (In finding_long (lint_like_findings uni_alnum code) <->
   exists ln, In ln (splitlines code) /\ 120 < List.length ln) /\
  (In finding_trailing (lint_like_findings uni_alnum code) <->
   trailing_shape code) /\
  (forall text c,
     isspace c = true ->
     In finding_trailing (lint_like_findings uni_alnum (text ++ [c]))) /\
  (forall a b,
     In finding_trailing
       (lint_like_findings uni_alnum (a ++ [LF; LF] ++ b))).
Proof.
  split; [|split; [|split; [|split]]].
  - rewrite tabs_finding_fires. apply contains_char.
  - rewrite long_finding_fires, existsb_exists.
    split; intros (ln & Hin & H); exists ln; split; auto;
      now apply Nat.ltb_lt.
  - rewrite trailing_finding_fires. apply trailing_search_shape.
  - intros text c Hc. rewrite trailing_finding_fires.
    apply trailing_search_shape. exists text, c, []. auto.
  - intros a b. rewrite trailing_finding_fires.
    apply trailing_search_shape. exists a, LF, (LF :: b).
    split; [reflexivity|]. split; [reflexivity|]. right. eauto.
Qed.

(** X17. Findings on normalized text. The normal form of any text ends
    in a line feed and holds no tab, so the lint engine, run on the
    output of the normalizer, always reports trailing whitespace and
    never reports tabs. *)
Theorem findings_on_formatted_text (uni_alnum : N -> bool) (code : str) :
  In finding_trailing
    (lint_like_findings uni_alnum (simple_auto_format code)) /\
  ~ In finding_tabs
      (lint_like_findings uni_alnum (simple_auto_format code)).
Proof.
  split.
  - rewrite trailing_finding_fires. apply trailing_search_shape.
    unfold simple_auto_format. eexists _, LF, []. auto.
  - rewrite tabs_finding_fires, contains_char. intros Hin.
    pose proof (simple_auto_format_no_tab code) as Hno.
    rewrite Forall_forall in Hno. now apply (Hno TAB).
Qed.
